(** * The robot lifecycle orchestrator of [lib/robot.js]

    A shallow embedding of the controller ("Robot") of [lib/robot.js]:
    registration of connections and devices, construction, the two-phase
    start, the halt sequence and serialisation, and the properties the
    specification states about them.

    JavaScript callbacks are Rocq closures; the single-threaded run-to-completion
    execution model is a state-and-exception monad whose state records the
    controller, the handles it shares, the trace of observable effects and
    the completions that adapters have deferred to a later turn of the
    event loop. *)

From Stdlib Require Import ZArith NArith Lia Ascii String.
From stdpp Require Import base list strings pretty.

Set Default Proof Using "Type".
Set Warnings "-register-all".
Local Open Scope string_scope.
Local Open Scope list_scope.
Local Open Scope nat_scope.

(** ** JavaScript objects used as maps

    [this.connections], [this.devices], [this.commands] and the options
    object are plain objects.  An object keeps its own properties in
    creation order, but enumerates (in [for .. in] and [Object.keys]) the
    keys that are canonical array indices first, in ascending numeric
    order, and the other keys after them in creation order. *)

Module JsObject.

Definition digit (a : ascii) : option N :=
  let n := N_of_ascii a in
  if ((48 <=? n) && (n <=? 57))%N then Some (n - 48)%N else None.

Fixpoint digits (s : string) (acc : N) : option N :=
  match s with
  | EmptyString => Some acc
  | String a s' =>
      match digit a with
      | Some d => digits s' (10 * acc + d)%N
      | None => None
      end
  end.

(** [array_index k] is [Some n] when [k] is the canonical decimal
    spelling of an integer [n < 2^32 - 1]. *)
Definition array_index (k : string) : option N :=
  match k with
  | EmptyString => None
  | _ =>
      match digits k 0 with
      | Some n =>
          if String.eqb (pretty n) k && (n <? 4294967295)%N
          then Some n else None
      | None => None
      end
  end.

Definition is_index (k : string) : bool :=
  match array_index k with Some _ => true | None => false end.

Section Obj.
Context {V : Type}.

(** Own properties, in creation order. *)
Definition t := list (string * V).

Definition empty : t := [].

Fixpoint get (k : string) (o : t) : option V :=
  match o with
  | [] => None
  | (k', v) :: o' => if String.eqb k k' then Some v else get k o'
  end.

(** [o[k] = v]: an existing property keeps its place. *)
Fixpoint set (k : string) (v : V) (o : t) : t :=
  match o with
  | [] => [(k, v)]
  | (k', v') :: o' =>
      if String.eqb k k' then (k, v) :: o' else (k', v') :: set k v o'
  end.

Fixpoint remove (k : string) (o : t) : t :=
  match o with
  | [] => []
  | (k', v') :: o' =>
      if String.eqb k k' then o' else (k', v') :: remove k o'
  end.

Definition has (k : string) (o : t) : bool :=
  match get k o with Some _ => true | None => false end.

Fixpoint insert_sorted (e : N * (string * V)) (l : list (N * (string * V)))
  : list (N * (string * V)) :=
  match l with
  | [] => [e]
  | e' :: l' =>
      if (fst e <=? fst e')%N then e :: e' :: l'
      else e' :: insert_sorted e l'
  end.

Fixpoint index_entries (o : t) : list (N * (string * V)) :=
  match o with
  | [] => []
  | kv :: o' =>
      match array_index (fst kv) with
      | Some n => insert_sorted (n, kv) (index_entries o')
      | None => index_entries o'
      end
  end.

Definition named_entries (o : t) : t :=
  List.filter (fun kv => negb (is_index (fst kv))) o.

(** Enumeration order of [for (k in o)], [Object.keys(o)]. *)
Definition entries (o : t) : t :=
  List.map snd (index_entries o) ++ named_entries o.

Definition keys (o : t) : list string := List.map fst (entries o).
Definition values (o : t) : list V := List.map snd (entries o).

(** Keys in creation order. *)
Definition created (o : t) : list string := List.map fst o.
End Obj.

Arguments t : clear implicits.
End JsObject.

Abbreviation Obj := JsObject.t.

(** ** Values *)

(** Functions are opaque: a function supplied by the caller is known by
    an identifier, and calling it is an observable effect. *)
Inductive Fn :=
| FnUser (id : string)
| FnDefaultWork            (* function() { this.log("No work yet."); } *)
| FnMethod (m : string).   (* a bound prototype method of the robot *)

Inductive Value :=
| VUndef
| VNull
| VBool (b : bool)
| VNum (z : Z)
| VStr (s : string)
| VList (l : list Value)
| VErr (message : string)       (* an Error object *)
| VObject (tag : string)        (* any other object *)
| VFun (f : Fn)
| VRobot                        (* the controller itself *)
| VConn (c : nat)               (* a connection handle *)
| VDev (d : nat).               (* a device handle *)

Definition truthy (v : Value) : bool :=
  match v with
  | VUndef | VNull => false
  | VBool b => b
  | VNum z => negb (z =? 0)%Z
  | VStr s => negb (String.eqb s "")
  | _ => true
  end.

Definition isFunction (v : Value) : bool :=
  match v with VFun _ => true | _ => false end.

Definition isString (v : Value) : bool :=
  match v with VStr _ => true | _ => false end.

(** [v == null] *)
Definition is_nullish (v : Value) : bool :=
  match v with VUndef | VNull => true | _ => false end.

(** String conversion, as used by [+] on a string. *)
Definition to_str (v : Value) : string :=
  match v with
  | VUndef => "undefined"
  | VNull => "null"
  | VBool true => "true"
  | VBool false => "false"
  | VNum z => pretty z
  | VStr s => s
  | VList _ => "[object Array]"
  | VErr m => "Error: " +:+ m
  | VFun _ => "[Function]"
  | VObject _ | VRobot | VConn _ | VDev _ => "[object Object]"
  end.

(** ** Handles

    What an adapter or driver does with the completion callback it is
    handed.  Adapters and drivers are external collaborators; these are
    the behaviours the orchestration has to cope with.  A method behaves
    the same way each time it is called. *)
Inductive Behaviour :=
| CallsBack (err : Value)        (* invokes callback(err) before returning *)
| CallsBackLater (err : Value)   (* invokes callback(err) in a later turn *)
| Throws (message : string)      (* throws an Error, never calls back *)
| NeverCallsBack.                (* returns and never calls back *)

Record Connection := mkConnection {
  c_name : string;
  connected : bool;                (* connection.connected === true *)
  host : Value;
  port : Value;
  connect_impl : Behaviour;
  disconnect_impl : Behaviour
}.

Record Device := mkDevice {
  d_name : string;
  started : bool;                  (* device.started === true *)
  pin : Value;
  d_connection : Value;            (* the connection reference *)
  start_impl : Behaviour;
  halt_impl : Behaviour
}.

(** ** Observable effects *)
Inductive Event :=
| ELog (line : string)                         (* Logger.log(line) *)
| ESigint                                      (* process.emit("SIGINT") *)
| EEmit (name : string) (payload : Value)      (* this.emit(name, payload) *)
| ECall (f : string) (this : Value) (args : list Value)
                                               (* a caller's function runs *)
| EConnect (c : nat)                           (* connection.connect(cb) *)
| EDisconnect (c : nat)                        (* connection.disconnect(cb) *)
| EStart (d : nat)                             (* device.start(cb) *)
| EHalt (d : nat)                              (* device.halt(cb) *)
| EUncaught (message : string).                (* an exception reached the event loop *)

(** The closure variables of one call of [_.parallel]. *)
Record Join := mkJoin {
  j_total : nat;
  j_completed : nat;
  j_error : Value;
  j_results : list Value
}.

(** ** The state of the program

    The controller, the handles (shared between the maps, the controller's
    own properties and the devices that refer to a connection), the
    process-wide settings and the effects observed so far. *)
Record State := mkState {
  name : string;   (* this.name *)
  running : bool;   (* this.running *)
  connections : Obj nat;   (* this.connections: name -> connection handle *)
  devices : Obj nat;   (* this.devices: name -> device handle *)
  work : Value;   (* this.work *)
  commands : Obj Value;   (* this.commands *)
  own : Obj Value;   (* the properties assigned by name, this[name] = .. *)
  inherited : list string;   (* names defined through EventEmitter.prototype *)
  listeners : string -> nat;   (* this.listeners(event).length *)
  conn_heap : nat -> Connection;   (* the connection handles *)
  next_conn : nat;
  dev_heap : nat -> Device;   (* the device handles *)
  next_dev : nat;
  joins : list Join;   (* the closure variables of the calls of _.parallel *)
  workMode : option string;   (* Config.workMode *)
  robot_id : nat;   (* ROBOT_ID *)
  trace : list Event
}.

Definition set_name (v : string) (s : State) : State :=
  mkState v (running s) (connections s) (devices s) (work s) (commands s)
    (own s) (inherited s) (listeners s) (conn_heap s) (next_conn s)
    (dev_heap s) (next_dev s) (joins s) (workMode s) (robot_id s) (trace s).

Definition set_running (v : bool) (s : State) : State :=
  mkState (name s) v (connections s) (devices s) (work s) (commands s)
    (own s) (inherited s) (listeners s) (conn_heap s) (next_conn s)
    (dev_heap s) (next_dev s) (joins s) (workMode s) (robot_id s) (trace s).

Definition set_connections (v : Obj nat) (s : State) : State :=
  mkState (name s) (running s) v (devices s) (work s) (commands s) (own s)
    (inherited s) (listeners s) (conn_heap s) (next_conn s) (dev_heap s)
    (next_dev s) (joins s) (workMode s) (robot_id s) (trace s).

Definition set_devices (v : Obj nat) (s : State) : State :=
  mkState (name s) (running s) (connections s) v (work s) (commands s)
    (own s) (inherited s) (listeners s) (conn_heap s) (next_conn s)
    (dev_heap s) (next_dev s) (joins s) (workMode s) (robot_id s) (trace s).

Definition set_work (v : Value) (s : State) : State :=
  mkState (name s) (running s) (connections s) (devices s) v (commands s)
    (own s) (inherited s) (listeners s) (conn_heap s) (next_conn s)
    (dev_heap s) (next_dev s) (joins s) (workMode s) (robot_id s) (trace s).

Definition set_commands (v : Obj Value) (s : State) : State :=
  mkState (name s) (running s) (connections s) (devices s) (work s) v
    (own s) (inherited s) (listeners s) (conn_heap s) (next_conn s)
    (dev_heap s) (next_dev s) (joins s) (workMode s) (robot_id s) (trace s).

Definition set_own (v : Obj Value) (s : State) : State :=
  mkState (name s) (running s) (connections s) (devices s) (work s)
    (commands s) v (inherited s) (listeners s) (conn_heap s) (next_conn s)
    (dev_heap s) (next_dev s) (joins s) (workMode s) (robot_id s) (trace s).

Definition set_listeners (v : string -> nat) (s : State) : State :=
  mkState (name s) (running s) (connections s) (devices s) (work s)
    (commands s) (own s) (inherited s) v (conn_heap s) (next_conn s)
    (dev_heap s) (next_dev s) (joins s) (workMode s) (robot_id s) (trace s).

Definition set_conn_heap (v : nat -> Connection) (n : nat) (s : State) : State :=
  mkState (name s) (running s) (connections s) (devices s) (work s)
    (commands s) (own s) (inherited s) (listeners s) v n (dev_heap s)
    (next_dev s) (joins s) (workMode s) (robot_id s) (trace s).

Definition set_dev_heap (v : nat -> Device) (n : nat) (s : State) : State :=
  mkState (name s) (running s) (connections s) (devices s) (work s)
    (commands s) (own s) (inherited s) (listeners s) (conn_heap s)
    (next_conn s) v n (joins s) (workMode s) (robot_id s) (trace s).

Definition set_joins (v : list Join) (s : State) : State :=
  mkState (name s) (running s) (connections s) (devices s) (work s)
    (commands s) (own s) (inherited s) (listeners s) (conn_heap s)
    (next_conn s) (dev_heap s) (next_dev s) v (workMode s) (robot_id s)
    (trace s).

Definition set_robot_id (v : nat) (s : State) : State :=
  mkState (name s) (running s) (connections s) (devices s) (work s)
    (commands s) (own s) (inherited s) (listeners s) (conn_heap s)
    (next_conn s) (dev_heap s) (next_dev s) (joins s) (workMode s) v
    (trace s).

Definition set_trace (v : list Event) (s : State) : State :=
  mkState (name s) (running s) (connections s) (devices s) (work s)
    (commands s) (own s) (inherited s) (listeners s) (conn_heap s)
    (next_conn s) (dev_heap s) (next_dev s) (joins s) (workMode s)
    (robot_id s) v.

(** [h[i := x]] on a heap. *)
Definition upd {A : Type} (i : nat) (x : A) (h : nat -> A) : nat -> A :=
  fun k => if Nat.eqb k i then x else h k.

(** ** Execution model

    One job (a call from the outside, or one deferred completion) runs to
    completion; it ends normally or by a thrown [Error], and leaves behind
    the completions that were deferred while it ran.  A deferred
    completion is itself a job. *)
Inductive Res (A : Type) :=
| Normal (a : A)
| Thrown (message : string).
Arguments Normal {A} a.
Arguments Thrown {A} message.

Inductive Task := MkTask (run : State -> Res unit * World)
with World := MkWorld (st : State) (pending : list Task).

Definition st (w : World) : State := let (s, _) := w in s.
Definition pending (w : World) : list Task := let (_, q) := w in q.
Definition run (t : Task) : State -> Res unit * World := let (r) := t in r.

Definition M (A : Type) : Type := World -> Res A * World.

#[global] Instance M_ret : MRet M := fun A a w => (Normal a, w).
#[global] Instance M_bind : MBind M := fun A B f m w =>
  match m w with
  | (Normal a, w') => f a w'
  | (Thrown e, w') => (Thrown e, w')
  end.

Definition throw {A : Type} (message : string) : M A :=
  fun w => (Thrown message, w).

(** [try { m } catch (e) { h e }] *)
Definition try_catch (m : M unit) (h : string -> M unit) : M unit :=
  fun w =>
    match m w with
    | (Normal a, w') => (Normal a, w')
    | (Thrown e, w') => h e w'
    end.

Definition get_state : M State := fun w => (Normal (st w), w).

Definition modify (f : State -> State) : M unit :=
  fun w => (Normal tt, MkWorld (f (st w)) (pending w)).

(** The job [m] is queued for a later turn of the event loop. *)
Definition defer (m : M unit) : M unit :=
  fun w =>
    (Normal tt,
     MkWorld (st w) (pending w ++ [MkTask (fun s => m (MkWorld s []))])).

Definition effect (e : Event) : M unit :=
  modify (fun s => set_trace (trace s ++ [e]) s).

(** [functions.forEach(f)] *)
Fixpoint forEach {A : Type} (l : list A) (f : A -> M unit) : M unit :=
  match l with
  | [] => mret tt
  | x :: l' => f x ;; forEach l' f
  end.

(** A completion callback [function (err, result)]. *)
Definition Cb := Value -> Value -> M unit.

(** An exception that reaches the event loop ends the process. *)
Definition crashed (message : string) (s : State) : State :=
  set_trace (trace s ++ [EUncaught message]) s.

(** The event loop delivers the deferred completions one per turn, until
    none is left.  Which of the pending completions comes next is not for
    the program to decide: the schedule names, turn by turn, its position
    among the pending ones (modulo their number).  The result is [None]
    when the schedule ends before the completions do. *)
Fixpoint event_loop (schedule : list nat) (w : World) : option State :=
  match pending w with
  | [] => Some (st w)
  | _ :: _ =>
      match schedule with
      | [] => None
      | i :: schedule' =>
          let i := i mod length (pending w) in
          match pending w !! i with
          | None => None
          | Some t =>
              match run t (st w) with
              | (Normal _, w') =>
                  event_loop schedule'
                    (MkWorld (st w') (delete i (pending w) ++ pending w'))
              | (Thrown e, w') => Some (crashed e (st w'))
              end
          end
      end
  end.

(** The job [m] and everything it defers, run from state [s]. *)
Definition run_job (schedule : list nat) (m : M unit) (s : State)
  : option State :=
  match m (MkWorld s []) with
  | (Normal _, w) => event_loop schedule w
  | (Thrown e, w) => Some (crashed e (st w))
  end.

(** The state in which the call [m] returns (or throws). *)
Definition after (m : M unit) (s : State) : State := st (snd (m (MkWorld s []))).

(** ** Helpers of the repository that [robot.js] calls *)

(** The candidate names of [makeUnique]: the original with [-n] appended. *)
Definition suffixed (name : string) (n : nat) : string :=
  name +:+ "-" +:+ pretty n.

(** Modelled from the spec: the search loop of [Utils.makeUnique], from
    the candidate [n] on.  At most [fuel] candidates are compared with
    [arr]. *)
Fixpoint makeUnique_from (fuel n : nat) (name : string) (arr : list string)
  : string :=
  match fuel with
  | 0 => suffixed name n
  | S fuel' =>
      if bool_decide (suffixed name n ∈ arr)
      then makeUnique_from fuel' (S n) name arr
      else suffixed name n
  end.

(** Modelled from the spec: [Utils.makeUnique] (lib/utils.js) is not among
    the sources.  "Generate a unique name by appending -1, -2, ... to the
    original until no collision remains."  Among one candidate more than
    there are names in [arr], one is free ([makeUnique_spec] below), so
    comparing [length arr] candidates is enough. *)
Definition makeUnique (name : string) (arr : list string) : string :=
  makeUnique_from (length arr) 1 name arr.

(** Modelled from the spec: [Utils.fetch] (lib/utils.js) and the [Config]
    store are not among the sources.  A setting that is absent takes its
    default. *)
Definition fetch (setting : option string) (default : string) : string :=
  match setting with Some v => v | None => default end.

(** Modelled from the spec: the completion callback that [_.parallel]
    hands to each of its units; [j] names the closure variables of that
    call.  The first error reported is kept; the join completes with the
    callback that brings the count to the total. *)
Definition join_callback (j : nat) (done : Cb) : Cb := fun err result =>
  s ← get_state;
  match joins s !! j with
  | None => mret tt
  | Some c =>
      let c' :=
        if truthy err
        then mkJoin (j_total c) (S (j_completed c))
               (if truthy (j_error c) then j_error c else err) (j_results c)
        else mkJoin (j_total c) (S (j_completed c))
               (j_error c) (j_results c ++ [result]) in
      modify (fun s => set_joins (<[j := c']> (joins s)) s);;
      if Nat.eqb (j_completed c') (j_total c')
      then done (j_error c') (VList (j_results c'))
      else mret tt
  end.

(** Modelled from the spec: [_.parallel] (lib/utils/helpers.js) is not
    among the sources.  "All units are invoked; the phase completes when
    all units have called back; if any unit reports an error, the first
    such error is the phase result, but all units still run to
    completion."  The units are invoked in order; nothing is caught here,
    so a unit that throws ends the call. *)
Definition parallel (functions : list (Cb -> M unit)) (done : Cb) : M unit :=
  s ← get_state;
  let j := length (joins s) in
  modify (set_joins (joins s ++ [mkJoin (length functions) 0 VNull []]));;
  match functions with
  | [] => done VNull (VList [])
  | _ => forEach functions (fun fn => fn (join_callback j done))
  end.

(** Modelled from the spec: [_.series], from the phases [functions] on,
    with the [results] of the phases completed so far. *)
Fixpoint series_from (functions : list (Cb -> M unit)) (results : list Value)
    (done : Cb) : M unit :=
  match functions with
  | [] => done VNull (VList results)
  | fn :: rest =>
      fn (fun err result =>
            if truthy err then done err (VList results)
            else series_from rest (results ++ [result]) done)
  end.

(** Modelled from the spec: [_.series] (lib/utils/helpers.js) is not among
    the sources.  A phase is run only after the phase before it has
    completed; the first phase error ends the series with the results of
    the phases completed so far. *)
Definition series (functions : list (Cb -> M unit)) (done : Cb) : M unit :=
  series_from functions [] done.

(** What every object inherits from [Object.prototype]: a property read
    finds these when the object has no own property of that name. *)
Definition object_prototype : list string :=
  [ "constructor"; "toString"; "toLocaleString"; "valueOf";
    "hasOwnProperty"; "isPrototypeOf"; "propertyIsEnumerable"; "__proto__";
    "__defineGetter__"; "__defineSetter__"; "__lookupGetter__";
    "__lookupSetter__" ].

Definition inherited_from_object (k : string) : Value :=
  if String.eqb k "__proto__" then VObject "Object.prototype"
  else if bool_decide (k ∈ object_prototype) then VFun (FnMethod k)
  else VUndef.

(** [o[k]] for a map [o] of handles. *)
Definition read_handle (mk : nat -> Value) (k : string) (o : Obj nat) : Value :=
  match JsObject.get k o with
  | Some r => mk r
  | None => inherited_from_object k
  end.

(** ** Configuration *)
Record DevSpec := mkDevSpec {
  ds_pin : Value;
  ds_connection : Value;     (* device.connection *)
  ds_start : Behaviour;      (* what the driver's start does *)
  ds_halt : Behaviour        (* what the driver's halt does *)
}.

Record ConnSpec := mkConnSpec {
  cs_host : Value;
  cs_port : Value;
  cs_connect : Behaviour;    (* what the adaptor's connect does *)
  cs_disconnect : Behaviour; (* what the adaptor's disconnect does *)
  cs_devices : option (Obj DevSpec)   (* conn.devices *)
}.

(** Modelled from the spec: [initializer] (lib/initializer.js) and the
    adaptor and driver modules it loads are not among the sources.  It
    makes a handle with the identity fields of the specification, not yet
    connected (started), around the adaptor (driver) the specification
    names. *)
Definition initializer_adaptor (name : string) (conn : ConnSpec) : Connection :=
  mkConnection name false (cs_host conn) (cs_port conn)
    (cs_connect conn) (cs_disconnect conn).

(** Modelled from the spec: [initializer("driver", device)], likewise. *)
Definition initializer_driver (name : string) (connection : Value)
    (device : DevSpec) : Device :=
  mkDevice name false (ds_pin device) connection
    (ds_start device) (ds_halt device).

(** ** The robot *)

Definition newline : string := String (ascii_of_nat 10) EmptyString.

(** [Robot.prototype.log] *)
Definition log (str : string) : M unit :=
  s ← get_state;
  effect (ELog ("[" +:+ name s +:+ "] - " +:+ str)).

(** Calling a value: a function of the caller is an observable effect,
    anything that is not a function is a [TypeError]. *)
Definition call (f : Value) (this : Value) (args : list Value) : M unit :=
  match f with
  | VFun (FnUser id) => effect (ECall id this args)
  | VFun FnDefaultWork => log "No work yet."
  | VFun (FnMethod m) => effect (ECall m this args)
  | _ => throw "TypeError: not a function"
  end.

(** [Robot.prototype.connection].  The fields [robot] and [name] that it
    sets on the specification, and the [adapter] spelling it accepts for
    [adaptor], are read by [initializer] only. *)
Definition connection (name : string) (conn : ConnSpec) : M unit :=
  s ← get_state;
  conn_name ←
    (if truthy (read_handle VConn name (connections s)) then
       let original := name in
       let conn_name :=
         makeUnique original (JsObject.keys (connections s)) in
       log ("Connection names must be unique."
            +:+ "Renaming '" +:+ original +:+ "' to '" +:+ conn_name +:+ "'");;
       mret conn_name
     else mret name);
  s ← get_state;
  let c := next_conn s in
  modify (set_conn_heap (upd c (initializer_adaptor conn_name conn) (conn_heap s))
            (S c));;
  modify (fun s => set_connections (JsObject.set conn_name c (connections s)) s).

(** [Robot.prototype.device] *)
Definition device (name : string) (device : DevSpec) : M unit :=
  s ← get_state;
  device_name ←
    (if truthy (read_handle VDev name (devices s)) then
       let original := name in
       let device_name := makeUnique original (JsObject.keys (devices s)) in
       log ("Device names must be unique."
            +:+ "Renaming '" +:+ original +:+ "' to '" +:+ device_name +:+ "'");;
       mret device_name
     else mret name);
  device_connection ←
    match ds_connection device with
    | VStr wanted =>
        (if is_nullish (read_handle VConn wanted (connections s)) then
           log ("No connection found with the name " +:+ wanted +:+ "."
                +:+ newline);;
           effect ESigint
         else mret tt);;
        mret (read_handle VConn wanted (connections s))
    | other =>
        mret match JsObject.keys (connections s) with
             | c :: _ => read_handle VConn c (connections s)
             | [] => other
             end
    end;
  s ← get_state;
  let d := next_dev s in
  modify (set_dev_heap
            (upd d (initializer_driver device_name device_connection device)
               (dev_heap s))
            (S d));;
  modify (fun s => set_devices (JsObject.set device_name d (devices s)) s).

(** The configuration object handed to the constructor. *)
Inductive OptValue :=
| OV (v : Value)                          (* a scalar, an array, a function *)
| OFunction (id : string) (returns : OptValue)
                                          (* a function and what it returns *)
| OMap (m : Obj Value)                    (* a mapping *)
| OConnections (cs : Obj ConnSpec)
| ODevices (ds : Obj DevSpec).

Definition Opts := Obj OptValue.

Definition as_value (o : OptValue) : Value :=
  match o with
  | OV v => v
  | OFunction id _ => VFun (FnUser id)
  | OMap _ => VObject "mapping"
  | OConnections _ => VObject "connections"
  | ODevices _ => VObject "devices"
  end.

Definition opt (k : string) (opts : Opts) : Value :=
  match JsObject.get k opts with
  | Some o => as_value o
  | None => inherited_from_object k
  end.

Definition opt_connections (opts : Opts) : Obj ConnSpec :=
  match JsObject.get "connections" opts with
  | Some (OConnections cs) => cs
  | _ => []
  end.

Definition opt_devices (opts : Opts) : Obj DevSpec :=
  match JsObject.get "devices" opts with
  | Some (ODevices ds) => ds
  | _ => []
  end.

Definition with_connection (name : string) (d : DevSpec) : DevSpec :=
  mkDevSpec (ds_pin d) (VStr name) (ds_start d) (ds_halt d).

(** The devices declared inside a connection join [opts.devices], bound
    to that connection by name. *)
Definition merge_devices (name : string) (embedded : Obj DevSpec)
    (devs : Obj DevSpec) : Obj DevSpec :=
  fold_left (fun acc kv => JsObject.set (fst kv) (with_connection name (snd kv)) acc)
    (JsObject.entries embedded) devs.

(** [Robot.prototype.initRobot].  The name is kept as the string it shows
    as; [opts.connections] and [opts.devices] are taken in their mapping
    form. *)
Definition initRobot (opts : Opts) : M unit :=
  (if truthy (opt "name" opts)
   then modify (set_name (to_str (opt "name" opts)))
   else modify (fun s => set_robot_id (S (robot_id s))
                           (set_name ("Robot " +:+ pretty (robot_id s)) s)));;
  modify (set_running false);;
  modify (set_connections []);;
  modify (set_devices []);;
  modify (set_work (if truthy (opt "work" opts) then opt "work" opts
                    else opt "play" opts));;
  modify (set_commands []);;
  s ← get_state;
  (if truthy (work s) then mret tt else modify (set_work (VFun FnDefaultWork)));;
  let devs :=
    fold_left (fun devs kv =>
                 match cs_devices (snd kv) with
                 | Some embedded => merge_devices (fst kv) embedded devs
                 | None => devs
                 end)
      (JsObject.entries (opt_connections opts)) (opt_devices opts) in
  forEach (JsObject.entries (opt_connections opts))
    (fun kv => connection (fst kv) (snd kv));;
  forEach (JsObject.entries devs) (fun kv => device (fst kv) (snd kv)).

(** The methods of [Robot.prototype]; the constructor binds each of them
    to the new robot. *)
Definition robot_methods : list string :=
  [ "toJSON"; "connection"; "initRobot"; "device"; "start"; "startWork";
    "startConnections"; "startConnection"; "removeConnection";
    "startDevices"; "startDevice"; "removeDevice"; "createNewDevice";
    "deleteDevice"; "halt"; "toString"; "log" ].

(** [this[k]]: a property assigned by name shadows whatever the robot
    had under that name.  The methods of the embedding read the state
    fields and call one another directly: they describe a robot none of
    whose handles or configuration keys is named like a field or a method
    that the lifecycle uses. *)
Definition member (s : State) (k : string) : Value :=
  match JsObject.get k (own s) with
  | Some v => v
  | None =>
      if String.eqb k "name" then VStr (name s)
      else if String.eqb k "running" then VBool (running s)
      else if String.eqb k "connections" then VObject "connections"
      else if String.eqb k "devices" then VObject "devices"
      else if String.eqb k "work" then work s
      else if String.eqb k "commands" then VObject "commands"
      else if bool_decide (k ∈ robot_methods) then VFun (FnMethod k)
      else if bool_decide (k ∈ inherited s) then VFun (FnMethod k)
      else inherited_from_object k
  end.

(** [this[k] = v] *)
Definition assign (k : string) (v : Value) (s : State) : State :=
  set_own (JsObject.set k v (own s)) s.

Definition is_undefined (v : Value) : bool :=
  match v with VUndef => true | _ => false end.

(** [_.isObject(cmds)]: a mapping. *)
Definition as_mapping (o : option OptValue) : option (Obj Value) :=
  match o with
  | Some (OMap m) => Some m
  | Some (OConnections cs) =>
      Some (List.map (fun kv => (fst kv, VObject "connection")) cs)
  | Some (ODevices ds) =>
      Some (List.map (fun kv => (fst kv, VObject "device")) ds)
  | _ => None
  end.

(** [Robot.prototype.toJSON]; the serialised form of a handle is the
    handle's own business and is left as the handle. *)
Record RobotJSON := mkRobotJSON {
  json_name : string;
  json_connections : list nat;
  json_devices : list nat;
  json_commands : list string;
  json_events : Value
}.

Definition toJSON (s : State) : RobotJSON :=
  mkRobotJSON (name s)
    (JsObject.values (connections s))
    (JsObject.values (devices s))
    (JsObject.keys (commands s))
    (match member s "events" with VList l => VList l | _ => VList [] end).

(** [Robot.prototype.toString] *)
Definition toString (s : State) : string :=
  "[Robot name='" +:+ name s +:+ "']".

(** What a handle's method does with the callback it is given. *)
Definition invoke (b : Behaviour) (callback : Cb) : M unit :=
  match b with
  | CallsBack err => callback err VUndef
  | CallsBackLater err => defer (callback err VUndef)
  | Throws message => throw message
  | NeverCallsBack => mret tt
  end.

Definition mark_connected (c : Connection) : Connection :=
  mkConnection (c_name c) true (host c) (port c)
    (connect_impl c) (disconnect_impl c).

Definition mark_started (d : Device) : Device :=
  mkDevice (d_name d) true (pin d) (d_connection d)
    (start_impl d) (halt_impl d).

(** [Robot.prototype.startConnection] *)
Definition startConnection (c : nat) (callback : Cb) : M unit :=
  s ← get_state;
  let connection := conn_heap s c in
  if connected connection then callback VUndef VUndef
  else
    let str := "Starting connection '" +:+ c_name connection +:+ "'" in
    let str :=
      if truthy (host connection)
      then str +:+ " on host " +:+ to_str (host connection)
      else if truthy (port connection)
      then str +:+ " on port " +:+ to_str (port connection)
      else str in
    log (str +:+ ".");;
    modify (assign (c_name connection) (VConn c));;
    effect (EConnect c);;
    invoke (connect_impl connection) callback;;
    modify (fun s => set_conn_heap (upd c (mark_connected (conn_heap s c))
                                      (conn_heap s)) (next_conn s) s).

(** [Robot.prototype.startConnections] *)
Definition startConnections (callback : Cb) : M unit :=
  log "Starting connections.";;
  s ← get_state;
  let starters :=
    List.map (fun conn => fun cb => startConnection conn cb)
      (JsObject.values (connections s)) in
  parallel starters callback.

(** [Robot.prototype.startDevice] *)
Definition startDevice (d : nat) (callback : Cb) : M unit :=
  s ← get_state;
  let device := dev_heap s d in
  if started device then callback VUndef VUndef
  else
    let str := "Starting device '" +:+ d_name device +:+ "'" in
    let str :=
      if truthy (pin device) || match pin device with
                                | VNum 0 => true
                                | _ => false
                                end
      then str +:+ " on pin " +:+ to_str (pin device)
      else str in
    log (str +:+ ".");;
    modify (assign (d_name device) (VDev d));;
    effect (EStart d);;
    invoke (start_impl device) callback;;
    modify (fun s => set_dev_heap (upd d (mark_started (dev_heap s d))
                                     (dev_heap s)) (next_dev s) s).

(** [Robot.prototype.startDevices] *)
Definition startDevices (callback : Cb) : M unit :=
  log "Starting devices.";;
  s ← get_state;
  let starters :=
    List.map (fun device => fun cb => startDevice device cb)
      (JsObject.values (devices s)) in
  parallel starters callback.

(** [Robot.prototype.startWork] *)
Definition startWork : M unit :=
  log "Working.";;
  effect (EEmit "ready" VRobot);;
  s ← get_state;
  call (work s) VRobot [VRobot];;
  modify (set_running true).

(** The [wrap] of [halt]: the unit reports [null] to the join whatever
    the handle's method reports. *)
Definition wrap (fn : Cb -> M unit) : Cb -> M unit :=
  fun cb => fn (fun err _ => cb VNull err).

(** The two joins of [halt]: the device units, then the connection units. *)
Definition halt_units (s : State) (callback : Cb) : M unit :=
  let devices_ :=
    List.map wrap
      (List.map (fun d => fun cb =>
                   effect (EHalt d);; invoke (halt_impl (dev_heap s d)) cb)
         (JsObject.values (devices s))) in
  let connections_ :=
    List.map wrap
      (List.map (fun c => fun cb =>
                   effect (EDisconnect c);;
                   invoke (disconnect_impl (conn_heap s c)) cb)
         (JsObject.values (connections s))) in
  parallel devices_ (fun _ _ => parallel connections_ callback).

(** [Robot.prototype.halt] *)
Definition halt (callback : Cb) : M unit :=
  s ← get_state;
  if negb (running s) then callback VUndef VUndef
  else
    try_catch (halt_units s callback)
      (fun message =>
         log "An error occured while attempting to safely halt the robot";;
         log message);;
    modify (set_running false).

(** [callback = callback || function() {}] for a callback of the caller. *)
Definition callback_of (f : Value) : Cb :=
  if truthy f then fun err results => call f VUndef [err; results]
  else fun _ _ => mret tt.

(** The callback that the error path of [start] hands to [halt]. *)
Definition report_start_error (err : Value) : Cb := fun _ _ =>
  s ← get_state;
  (if isFunction (member s "error")
   then call (member s "error") VRobot [err]
   else mret tt);;
  s ← get_state;
  if (0 <? listeners s "error")%nat
  then effect (EEmit "error" err)
  else mret tt.

(** The completion [function(err, results)] that [start] hands to
    [_.series]. *)
Definition start_done (callback : Value) : Cb := fun err results =>
  (if truthy err then
     log "An error occured while trying to start the robot:";;
     log (to_str err);;
     halt (report_start_error err)
   else mret tt);;
  if isFunction callback then call callback VUndef [err; results]
  else mret tt.

(** [Robot.prototype.start] *)
Definition start (callback : Value) : M unit :=
  s ← get_state;
  if running s then mret tt
  else
    let mode := fetch (workMode s) "async" in
    let start_ := if String.eqb mode "async" then startWork else mret tt in
    series [startConnections; startDevices] (start_done callback);;
    start_.

(** [new Robot(..)] runs the constructor on a new object: it has no
    property assigned by name yet, and nobody listens to it. *)
Definition new_object (s : State) : State :=
  set_own [] (set_listeners (fun _ => 0) s).

(** The callback [function(opt, name)] of [_.each(opts, ..)] in the
    constructor. *)
Definition merge_option (opts : Opts) (kv : string * OptValue) : M unit :=
  let '(name, o) := kv in
  s ← get_state;
  if negb (is_undefined (member s name)) then mret tt
  else if isFunction (as_value o) then
    modify (assign name (as_value o));;
    if is_nullish (opt "commands" opts)
    then modify (fun s => set_commands
                            (JsObject.set name (as_value o) (commands s)) s)
    else mret tt
  else modify (assign name (as_value o)).

(** The constructor [Robot(opts)].  [validate] stands for
    [validator.validate], which throws on a configuration it rejects;
    [mode] is the process-wide setting [Config.mode]. *)
Definition Robot (validate : Opts -> option string) (mode : option string)
    (opts : Opts) : M unit :=
  match validate opts with
  | Some message => throw message
  | None =>
      modify new_object;;
      initRobot opts;;
      forEach (JsObject.entries opts) (merge_option opts);;
      (if truthy (opt "commands" opts) then
         cmds ←
           match JsObject.get "commands" opts with
           | Some (OFunction id returns) =>
               effect (ECall id VRobot []);; mret (Some returns)
           | Some (OV (VFun f)) =>
               call (VFun f) VRobot [];; mret (Some (OV VUndef))
           | other => mret other
           end;
         match as_mapping cmds with
         | Some m => modify (set_commands m)
         | None =>
             throw ("#commands must be an object "
                    +:+ "or a function that returns an object")
         end
       else mret tt);;
      if String.eqb (fetch mode "manual") "auto"
      then defer (start VUndef)
      else mret tt
  end.

(** ** Measures on traces and states used by the statements below *)

Definition is_sigint (e : Event) : bool :=
  match e with ESigint => true | _ => false end.

(** How many times the fatal reference condition was signalled. *)
Definition sigints (t : list Event) : nat := length (List.filter is_sigint t).

(** Every device in the map refers to a connection handle of the map. *)
Definition references_registered (s : State) : Prop :=
  ∀ k d, JsObject.get k (devices s) = Some d →
    ∃ kc c, d_connection (dev_heap s d) = VConn c
            ∧ JsObject.get kc (connections s) = Some c.

(** The name under which [device] registers a device asked for as [name]. *)
Definition registered_device (s : State) (name : string) : string :=
  if truthy (read_handle VDev name (devices s))
  then makeUnique name (JsObject.keys (devices s)) else name.

(** ** Vocabulary for the statements about joins *)

(** The handle's method reports through its callback (now, or later). *)
Definition reports (b : Behaviour) : bool :=
  match b with CallsBack _ | CallsBackLater _ => true | _ => false end.

Definition reports_now (b : Behaviour) : bool :=
  match b with CallsBack _ => true | _ => false end.

(** A unit of [halt]: the method of a handle, recorded as [e] when it is
    invoked, wrapped. *)
Definition unit_of (u : Event * Behaviour) : Cb → M unit :=
  wrap (fun cb => effect (fst u);; invoke (snd u) cb).

Definition device_units (s : State) : list (Event * Behaviour) :=
  List.map (fun d => (EHalt d, halt_impl (dev_heap s d)))
    (JsObject.values (devices s)).

Definition connection_units (s : State) : list (Event * Behaviour) :=
  List.map (fun c => (EDisconnect c, disconnect_impl (conn_heap s c)))
    (JsObject.values (connections s)).

(** What the units that call back at once (in a later turn) report. *)
Fixpoint now_outcomes (us : list (Event * Behaviour)) : list Value :=
  match us with
  | [] => []
  | (_, CallsBack err) :: us' => err :: now_outcomes us'
  | _ :: us' => now_outcomes us'
  end.

Fixpoint later_outcomes (us : list (Event * Behaviour)) : list Value :=
  match us with
  | [] => []
  | (_, CallsBackLater err) :: us' => err :: later_outcomes us'
  | _ :: us' => later_outcomes us'
  end.

(** The deferred completion of a unit of join [j]. *)
Definition completion (j : nat) (done : Cb) (err : Value) : Task :=
  MkTask (fun s => join_callback j done VNull err (MkWorld s [])).

(** The effects of calling the function value [f]. *)
Definition call_trace (s : State) (f : Value) (this : Value)
    (args : list Value) : list Event :=
  match f with
  | VFun (FnUser id) => [ECall id this args]
  | VFun FnDefaultWork => [ELog ("[" +:+ name s +:+ "] - " +:+ "No work yet.")]
  | VFun (FnMethod m) => [ECall m this args]
  | _ => []
  end.

(** ** Vocabulary for the statements about the command table *)

(** The state fields that [initRobot] sets. *)
Definition robot_fields : list string :=
  [ "name"; "running"; "connections"; "devices"; "work"; "commands" ].

(** The names under which a newly initialised controller already has a
    member: a configuration key of such a name is not merged. *)
Definition consumed (s : State) (k : string) : bool :=
  bool_decide
    (k ∈ robot_fields ++ robot_methods ++ inherited s ++ object_prototype).

(** The command table that [opts.commands] supplies: the mapping itself,
    or what the function returns. *)
Definition explicit_commands (opts : Opts) : option (Obj Value) :=
  as_mapping
    match JsObject.get "commands" opts with
    | Some (OFunction _ returns) => Some returns
    | Some (OV (VFun _)) => Some (OV VUndef)
    | other => other
    end.

(** What [connection], [device] and so [initRobot] leave alone. *)
Definition untouched (s s' : State) : Prop :=
  commands s' = commands s ∧ own s' = own s ∧ inherited s' = inherited s
  ∧ work s' = work s.

(** ** Concrete programs *)

(** The program before any robot exists. *)
Definition fresh_program : State :=
  mkState "" false [] [] VUndef [] []
    [ "emit"; "on"; "once"; "addListener"; "removeListener";
      "removeAllListeners"; "listeners"; "setMaxListeners" ]
    (fun _ => 0)
    (fun _ => mkConnection "" false VUndef VUndef NeverCallsBack NeverCallsBack) 0
    (fun _ => mkDevice "" false VUndef VUndef NeverCallsBack NeverCallsBack) 0
    [] None 1 [].

Definition adaptor (connect disconnect : Behaviour) : ConnSpec :=
  mkConnSpec VUndef VUndef connect disconnect None.

Definition driver (connection : Value) (start halt : Behaviour) : DevSpec :=
  mkDevSpec VUndef connection start halt.

Definition accepts : Opts → option string := fun _ => None.

(** A robot made from an empty configuration. *)
Definition bare : State := after (Robot accepts None []) fresh_program.

(** Two connections, the second one named like an array index. *)
Definition two_links : State :=
  after (connection "b" (adaptor (CallsBack VUndef) (CallsBack VUndef));;
         connection "1" (adaptor (CallsBack VUndef) (CallsBack VUndef)))
    bare.

(** One connection and one device: registering either name again
    collides. *)
Definition twins : State :=
  after (connection "link" (adaptor (CallsBack VUndef) (CallsBack VUndef));;
         device "led" (driver (VStr "link") (CallsBack VUndef) (CallsBack VUndef)))
    bare.

(** One connection and one device, both succeeding asynchronously. *)
Definition ultron_opts : Opts :=
  [ ("name", OV (VStr "Ultron"));
    ("connections",
     OConnections
       [("loopback", adaptor (CallsBackLater VUndef) (CallsBackLater VUndef))]);
    ("devices",
     ODevices
       [("ping", driver (VStr "loopback")
                   (CallsBackLater VUndef) (CallsBackLater VUndef))]);
    ("work", OV (VFun (FnUser "work"))) ].

Definition ultron : State := after (Robot accepts None ultron_opts) fresh_program.

(** Two devices; the [halt] of the first one throws. *)
Definition faulty_opts : Opts :=
  [ ("name", OV (VStr "Faulty"));
    ("connections",
     OConnections [("loopback", adaptor (CallsBack VUndef) (CallsBack VUndef))]);
    ("devices",
     ODevices
       [("first", driver (VStr "loopback") (CallsBack VUndef) (Throws "boom"));
        ("second", driver (VStr "loopback") (CallsBack VUndef) (CallsBack VUndef))]) ].

Definition faulty : State :=
  after (start VUndef) (after (Robot accepts None faulty_opts) fresh_program).

(** A connection that fails asynchronously and disconnects asynchronously,
    on a controller with a local error handler and one listener on
    ["error"]. *)
Definition fragile_opts : Opts :=
  [ ("name", OV (VStr "Fragile"));
    ("connections",
     OConnections
       [("uplink", adaptor (CallsBackLater (VErr "no route"))
                     (CallsBackLater VUndef))]);
    ("error", OV (VFun (FnUser "onError"))) ].

Definition fragile : State :=
  set_listeners (fun e => if String.eqb e "error" then 1 else 0)
    (after (Robot accepts None fragile_opts) fresh_program).

(** The robot [ultron] once [start] has returned. *)
Definition ultron_started : State := after (start VUndef) ultron.

(** A started controller whose units all call back at once, with a local
    error handler and one listener on ["error"]. *)
Definition steady_opts : Opts :=
  [ ("name", OV (VStr "Steady"));
    ("connections",
     OConnections [("uplink", adaptor (CallsBack VUndef) (CallsBack VUndef))]);
    ("devices",
     ODevices
       [("led", driver (VStr "uplink") (CallsBack VUndef) (CallsBack (VErr "stuck")))]);
    ("error", OV (VFun (FnUser "onError"))) ].

Definition steady : State :=
  after (start VUndef)
    (set_listeners (fun e => if String.eqb e "error" then 1 else 0)
       (after (Robot accepts None steady_opts) fresh_program)).

(** A connection named like a method of the controller. *)
Definition shadowing_opts : Opts :=
  [ ("connections",
     OConnections [("halt", adaptor (CallsBackLater VUndef) (CallsBack VUndef))]) ].

Definition shadowing : State :=
  after (Robot accepts None shadowing_opts) fresh_program.

(** A configuration with a callable key and an explicit command table. *)
Definition echo_opts : Opts :=
  [ ("hello", OV (VFun (FnUser "hello")));
    ("commands", OMap [("echo", VFun (FnUser "echo"))]) ].

(** Two devices on one connection; the [halt] of the second one calls
    back in a later turn. *)
Definition duo_opts : Opts :=
  [ ("name", OV (VStr "Duo"));
    ("connections",
     OConnections [("hub", adaptor (CallsBack VUndef) (CallsBack VUndef))]);
    ("devices",
     ODevices
       [("left", driver (VStr "hub") (CallsBack VUndef) (CallsBack VUndef));
        ("right", driver (VStr "hub") (CallsBack VUndef)
                    (CallsBackLater VUndef))]) ].

Definition duo : State := after (Robot accepts None duo_opts) fresh_program.

(** Two connections: one connects in a later turn, the other never calls
    back. *)
Definition mute_opts : Opts :=
  [ ("name", OV (VStr "Mute"));
    ("connections",
     OConnections
       [("radio", adaptor (CallsBackLater VUndef) (CallsBack VUndef));
        ("probe", adaptor NeverCallsBack (CallsBack VUndef))]);
    ("devices",
     ODevices
       [("led", driver (VStr "radio") (CallsBack VUndef) (CallsBack VUndef))]) ].

Definition mute : State := after (Robot accepts None mute_opts) fresh_program.

(** Three connections; the [connect] of the second one throws. *)
Definition broken_opts : Opts :=
  [ ("name", OV (VStr "Broken"));
    ("connections",
     OConnections
       [("radio", adaptor (CallsBack VUndef) (CallsBack VUndef));
        ("probe", adaptor (Throws "no such port") (CallsBack VUndef));
        ("wire", adaptor (CallsBack VUndef) (CallsBack VUndef))]) ].

Definition broken : State :=
  after (Robot accepts None broken_opts) fresh_program.

(** ** Devices added and removed while the robot runs *)

(** [console.log(..)], a function of the environment: the call is
    recorded like the call of any function that is not the robot's. *)
Definition console_log (args : list Value) : M unit :=
  effect (ECall "console.log" (VObject "console") args).

(** [Robot.prototype.removeConnection]; [callback] takes no argument.
    Only a handle has a [disconnect] to call. *)
Definition removeConnection (connection : Value) (callback : M unit) : M unit :=
  match connection with
  | VConn c =>
      s ← get_state;
      effect (EDisconnect c);;
      invoke (disconnect_impl (conn_heap s c))
        (fun _ _ =>
           s ← get_state;
           modify (set_connections
                     (JsObject.remove (c_name (conn_heap s c)) (connections s)));;
           callback)
  | _ => throw "TypeError: connection.disconnect is not a function"
  end.

(** [Robot.prototype.removeDevice] *)
Definition removeDevice (device : Value) (callback : M unit) : M unit :=
  match device with
  | VDev d =>
      s ← get_state;
      effect (EHalt d);;
      invoke (halt_impl (dev_heap s d))
        (fun _ _ =>
           s ← get_state;
           modify (set_devices
                     (JsObject.remove (d_name (dev_heap s d)) (devices s)));;
           callback)
  | _ => throw "TypeError: device.halt is not a function"
  end.

(** [Robot.prototype.deleteDevice]; [opts_name] is [opts.name]. *)
Definition deleteDevice (opts_name : string) : M string :=
  console_log [VObject "opts"];;
  s ← get_state;
  let device := read_handle VDev opts_name (devices s) in
  if negb (truthy device)
  then mret ("device: " +:+ opts_name +:+ " not found")
  else
    let connection :=
      match device with
      | VDev d => d_connection (dev_heap s d)
      | _ => VUndef
      end in
    (if truthy connection
     then removeConnection connection (console_log [VStr "connection removed"])
     else mret tt);;
    removeDevice device (console_log [VStr "device removed"]);;
    mret "device removed".

(** A promise, as far as its executor has settled it. *)
Inductive Promise :=
| Pending
| Fulfilled (value : Value)
| Rejected (reason : Value).

(** The two functions that a promise hands to its executor. *)
Definition fulfil (v : Value) : M unit :=
  effect (ECall "fulfil" (VObject "promise") [v]).

Definition reject (v : Value) : M unit :=
  effect (ECall "reject" (VObject "promise") [v]).

Definition settlement (e : Event) : option Promise :=
  match e with
  | ECall f (VObject tag) [v] =>
      if String.eqb tag "promise" && String.eqb f "fulfil" then Some (Fulfilled v)
      else if String.eqb tag "promise" && String.eqb f "reject"
      then Some (Rejected v)
      else None
  | _ => None
  end.

(** The first settlement counts. *)
Fixpoint settled (t : list Event) : Promise :=
  match t with
  | [] => Pending
  | e :: t' =>
      match settlement e with
      | Some p => p
      | None => settled t'
      end
  end.

(** [new Promise(executor)]: the executor runs at once, as a plain
    function; an exception that leaves it rejects the promise, unless the
    promise is settled already. *)
Definition new_promise (executor : (Value -> M unit) -> (Value -> M unit) -> M unit)
  : M Promise :=
  fun w =>
    let since w' := settled (drop (length (trace (st w))) (trace (st w'))) in
    match executor fulfil reject w with
    | (Normal _, w') => (Normal (since w'), w')
    | (Thrown e, w') =>
        (Normal match since w' with
                | Pending => Rejected (VErr e)
                | p => p
                end, w')
    end.

(** Reading a property of [undefined] is a [TypeError]. *)
Definition property_of_undefined (k : string) : M Value :=
  throw ("TypeError: Cannot read property '" +:+ k +:+ "' of undefined").

(** [self.startConnection(v, cb)] and [self.startDevice(v, cb)] for a
    value read from a map: what is not a handle cannot be started. *)
Definition startConnection_of (v : Value) (callback : Cb) : M unit :=
  match v with
  | VConn c => startConnection c callback
  | _ => throw "TypeError: connection.connect is not a function"
  end.

Definition startDevice_of (v : Value) (callback : Cb) : M unit :=
  match v with
  | VDev d => startDevice d callback
  | _ => throw "TypeError: device.start is not a function"
  end.

(** The options of [createNewDevice]: [name] and [port], and for [type]
    what the adaptor and the driver of that name do ([ip] is for the
    adaptor alone). *)
Record NewDevice := mkNewDevice {
  nd_name : string;
  nd_port : Value;
  nd_connect : Behaviour;
  nd_disconnect : Behaviour;
  nd_start : Behaviour;
  nd_halt : Behaviour
}.

(** [Robot.prototype.createNewDevice].  The executor names its parameters
    [reject] and [resolve], in this order: its [resolve] is the function
    that rejects.  The file is in strict mode and the executor is an
    ordinary function, so [this] is undefined in it. *)
Definition createNewDevice (opts : NewDevice) : M Promise :=
  console_log [VObject "opts"];;
  let conn_name := nd_name opts in
  let conn :=
    mkConnSpec VUndef (nd_port opts) (nd_connect opts) (nd_disconnect opts)
      None in
  let dev :=
    mkDevSpec VUndef (VStr conn_name) (nd_start opts) (nd_halt opts) in
  new_promise (fun reject resolve =>
    connection conn_name conn;;
    s ← get_state;
    let dev_name :=
      if truthy (read_handle VDev (nd_name opts) (devices s))
      then makeUnique (nd_name opts) (JsObject.keys (devices s))
      else nd_name opts in
    device (nd_name opts) dev;;
    _ ← property_of_undefined "connections";
    s ← get_state;
    startConnection_of (read_handle VConn conn_name (connections s))
      (fun _ _ =>
         s ← get_state;
         startDevice_of (read_handle VDev dev_name (devices s))
           (fun _ _ =>
              console_log [VStr "Device Ready"];;
              s ← get_state;
              resolve (read_handle VDev dev_name (devices s))))).

(** ** Vocabulary for the statements about the registry *)

Definition is_invocation (e : Event) : bool :=
  match e with
  | EConnect _ | EDisconnect _ | EStart _ | EHalt _ => true
  | _ => false
  end.

(** The calls of the handles' methods, in order. *)
Definition invocations (t : list Event) : list Event :=
  List.filter is_invocation t.

(** What the robot reports without calling anything: a log line, the
    fatal reference signal. *)
Definition is_notice (e : Event) : bool :=
  match e with
  | ELog _ | ESigint => true
  | _ => false
  end.

Definition throws (b : Behaviour) : bool :=
  match b with Throws _ => true | _ => false end.

(** The maps and the handles agree: the keys of a map are pairwise
    different, and each key leads to a handle that was made, and that
    carries the key as its name. *)
Definition consistent (s : State) : Prop :=
  NoDup (JsObject.created (connections s))
  ∧ NoDup (JsObject.created (devices s))
  ∧ (∀ k c, JsObject.get k (connections s) = Some c →
            c_name (conn_heap s c) = k ∧ c < next_conn s)
  ∧ (∀ k d, JsObject.get k (devices s) = Some d →
            d_name (dev_heap s d) = k ∧ d < next_dev s).

(** The identity and the run state of the controller. *)
Definition same_controller (s s' : State) : Prop :=
  name s' = name s ∧ running s' = running s ∧ robot_id s' = robot_id s
  ∧ workMode s' = workMode s ∧ listeners s' = listeners s
  ∧ joins s' = joins s
  ∧ invocations (trace s') = invocations (trace s).

(** The maps and the handles. *)
Definition same_registry (s s' : State) : Prop :=
  connections s' = connections s ∧ devices s' = devices s
  ∧ conn_heap s' = conn_heap s ∧ next_conn s' = next_conn s
  ∧ dev_heap s' = dev_heap s ∧ next_dev s' = next_dev s.

(** [m] returns normally, defers nothing, and takes a state to one that
    [R] relates to it. *)
Definition steps (R : State → State → Prop) (m : M unit) : Prop :=
  ∀ s q, ∃ s', m (MkWorld s q) = (Normal tt, MkWorld s' q) ∧ R s s'.

(** However [m] ends, [R] relates the state it started in to the state
    it leaves. *)
Definition keeps {A : Type} (R : State → State → Prop) (m : M A) : Prop :=
  ∀ w, R (st w) (st (snd (m w))).

(** What [halt] leaves alone: all but the trace, the joins and
    [running]. *)
Definition halted_from (s s' : State) : Prop :=
  same_registry s s' ∧ own s' = own s ∧ commands s' = commands s
  ∧ name s' = name s ∧ work s' = work s.

(** ** Vocabulary for the statements about the phases of [start] *)

Definition is_log (e : Event) : bool :=
  match e with ELog _ => true | _ => false end.

(** The effects other than log lines, in order. *)
Definition actions (t : list Event) : list Event :=
  List.filter (fun e => negb (is_log e)) t.

(** The state in which [startConnection] calls [connect]: the line is
    logged and the handle is assigned to the robot under its name. *)
Definition connecting (c : nat) (s : State) : State :=
  let connection := conn_heap s c in
  let str := "Starting connection '" +:+ c_name connection +:+ "'" in
  let str :=
    if truthy (host connection)
    then str +:+ " on host " +:+ to_str (host connection)
    else if truthy (port connection)
    then str +:+ " on port " +:+ to_str (port connection)
    else str in
  after (log (str +:+ ".");;
         modify (assign (c_name connection) (VConn c));;
         effect (EConnect c)) s.

(** [connection.connected = true] *)
Definition set_connected (c : nat) (s : State) : State :=
  set_conn_heap (upd c (mark_connected (conn_heap s c)) (conn_heap s))
    (next_conn s) s.

(** The state in which [startDevice] calls [start]. *)
Definition starting (d : nat) (s : State) : State :=
  let device := dev_heap s d in
  let str := "Starting device '" +:+ d_name device +:+ "'" in
  let str :=
    if truthy (pin device) || match pin device with
                              | VNum 0 => true
                              | _ => false
                              end
    then str +:+ " on pin " +:+ to_str (pin device)
    else str in
  after (log (str +:+ ".");;
         modify (assign (d_name device) (VDev d));;
         effect (EStart d)) s.

(** [device.started = true] *)
Definition set_started (d : nat) (s : State) : State :=
  set_dev_heap (upd d (mark_started (dev_heap s d)) (dev_heap s))
    (next_dev s) s.

(** The units of a phase of [start], as the join sees them: a unit that
    is marked done calls back at once; any other is announced ([ph_pre]),
    then its method is called with the callback, then it is marked
    ([ph_mark]). *)
Record Phase := mkPhase {
  ph_run : nat → Cb → M unit;
  ph_flag : State → nat → bool;
  ph_impl : State → nat → Behaviour;
  ph_pre : nat → State → State;
  ph_mark : nat → State → State;
  ph_event : nat → Event;
  ph_frame : State → State → Prop
}.

Definition connection_phase : Phase :=
  mkPhase startConnection
    (fun s c => connected (conn_heap s c))
    (fun s c => connect_impl (conn_heap s c))
    connecting set_connected EConnect
    (fun s s' =>
       name s' = name s ∧ running s' = running s
       ∧ connections s' = connections s ∧ devices s' = devices s
       ∧ work s' = work s ∧ commands s' = commands s
       ∧ inherited s' = inherited s ∧ listeners s' = listeners s
       ∧ next_conn s' = next_conn s
       ∧ dev_heap s' = dev_heap s ∧ next_dev s' = next_dev s
       ∧ workMode s' = workMode s ∧ robot_id s' = robot_id s).

Definition device_phase : Phase :=
  mkPhase startDevice
    (fun s d => started (dev_heap s d))
    (fun s d => start_impl (dev_heap s d))
    starting set_started EStart
    (fun s s' =>
       name s' = name s ∧ running s' = running s
       ∧ connections s' = connections s ∧ devices s' = devices s
       ∧ work s' = work s ∧ commands s' = commands s
       ∧ inherited s' = inherited s ∧ listeners s' = listeners s
       ∧ conn_heap s' = conn_heap s ∧ next_conn s' = next_conn s
       ∧ next_dev s' = next_dev s
       ∧ workMode s' = workMode s ∧ robot_id s' = robot_id s).

(** A unit is visited: announced and marked, unless it was marked. *)
Definition visit (P : Phase) (c : nat) (s : State) : State :=
  if ph_flag P s c then s else ph_mark P c (ph_pre P c s).

(** The units [cs] are run in order, each calling back at once: the state
    in which the last callback is called, and what is left to do when it
    returns. *)
Fixpoint sweep (P : Phase) (cs : list nat) (s : State)
  : State * (State → State) :=
  match cs with
  | [] => (s, fun s' => s')
  | c :: cs' =>
      match cs' with
      | [] => if ph_flag P s c then (s, fun s' => s')
              else (ph_pre P c s, ph_mark P c)
      | _ :: _ => sweep P cs' (visit P c s)
      end
  end.

(** A unit calls back at once and reports no error: it is marked done, or
    its method calls back before it returns, without an error. *)
Definition immediate (P : Phase) (s : State) (c : nat) : Prop :=
  ph_flag P s c = true
  ∨ ∃ err, ph_impl P s c = CallsBack err ∧ truthy err = false.

(** What the statements about a phase need of its units. *)
Record PhaseLaws (P : Phase) : Prop := mkPhaseLaws {
  law_run : ∀ c cb s q,
    ph_run P c cb (MkWorld s q) =
    if ph_flag P s c then cb VUndef VUndef (MkWorld s q)
    else (invoke (ph_impl P s c) cb;; modify (ph_mark P c))
           (MkWorld (ph_pre P c s) q);
  law_flag_joins : ∀ js s c, ph_flag P (set_joins js s) c = ph_flag P s c;
  law_impl_joins : ∀ js s c, ph_impl P (set_joins js s) c = ph_impl P s c;
  law_pre_joins : ∀ js c s,
    ph_pre P c (set_joins js s) = set_joins js (ph_pre P c s);
  law_mark_joins : ∀ js c s,
    ph_mark P c (set_joins js s) = set_joins js (ph_mark P c s);
  law_joins_pre : ∀ c s, joins (ph_pre P c s) = joins s;
  law_joins_mark : ∀ c s, joins (ph_mark P c s) = joins s;
  law_flag_pre : ∀ c c' s, ph_flag P (ph_pre P c s) c' = ph_flag P s c';
  law_impl_pre : ∀ c c' s, ph_impl P (ph_pre P c s) c' = ph_impl P s c';
  law_flag_mark : ∀ c s, ph_flag P (ph_mark P c s) c = true;
  law_flag_mark_other : ∀ c c' s,
    c ≠ c' → ph_flag P (ph_mark P c s) c' = ph_flag P s c';
  law_impl_mark : ∀ c c' s, ph_impl P (ph_mark P c s) c' = ph_impl P s c';
  law_actions_pre : ∀ c s,
    actions (trace (ph_pre P c s)) = actions (trace s) ++ [ph_event P c];
  law_trace_mark : ∀ c s, trace (ph_mark P c s) = trace s;
  law_frame_refl : ∀ s, ph_frame P s s;
  law_frame_trans : ∀ s1 s2 s3,
    ph_frame P s1 s2 → ph_frame P s2 s3 → ph_frame P s1 s3;
  law_frame_pre : ∀ c s, ph_frame P s (ph_pre P c s);
  law_frame_mark : ∀ c s, ph_frame P s (ph_mark P c s)
}.

(** The units [cs], visited in order. *)
Definition visits (P : Phase) (cs : list nat) (s : State) : State :=
  fold_left (fun s c => visit P c s) cs s.

(** A unit calls back before it returns: it is marked done, or its method
    calls back at once. *)
Definition calls_back_now (P : Phase) (s : State) (c : nat) : bool :=
  ph_flag P s c || reports_now (ph_impl P s c).

(** What the units that call back in a later turn report. *)
Definition deferred (P : Phase) (s : State) (cs : list nat) : list Value :=
  omap (fun c =>
          if ph_flag P s c then None
          else match ph_impl P s c with
               | CallsBackLater err => Some err
               | _ => None
               end) cs.

(** The deferred completion of a unit of join [j] in a phase of [start]. *)
Definition later_task (j : nat) (done : Cb) (err : Value) : Task :=
  MkTask (fun s => join_callback j done err VUndef (MkWorld s [])).

(** * Properties *)

(** ** Facts about objects used as maps *)
Module JsObjectFacts.
Import JsObject.

Section Facts.
Context {V : Type}.
Implicit Types (o : Obj V) (k : string) (v : V).

Lemma get_set_eq k v o : get k (set k v o) = Some v.
Proof.
  induction o as [|[k' v'] o IH]; simpl.
  - by rewrite String.eqb_refl.
  - destruct (String.eqb k k') eqn:E; simpl; rewrite ?String.eqb_refl, ?E; done.
Qed.

Lemma get_set_ne k k' v o : k ≠ k' → get k' (set k v o) = get k' o.
Proof.
  intros Hne. induction o as [|[k0 v0] o IH]; simpl.
  - destruct (String.eqb_spec k' k); congruence.
  - destruct (String.eqb_spec k k0) as [->|]; simpl.
    + destruct (String.eqb_spec k' k0); congruence.
    + by rewrite IH.
Qed.

Lemma get_None k o : get k o = None ↔ k ∉ created o.
Proof.
  unfold created. induction o as [|[k' v'] o IH]; simpl.
  - split; [intros _; apply not_elem_of_nil | done].
  - rewrite not_elem_of_cons.
    destruct (String.eqb_spec k k') as [->|Hne].
    + split; [done|]. by intros [[] _].
    + rewrite IH. split; [by intros ?|by intros [_ ?]].
Qed.

Lemma get_Some_created k o : is_Some (get k o) ↔ k ∈ created o.
Proof.
  destruct (get k o) eqn:E.
  - split; [intros _|eauto].
    destruct (decide (k ∈ created o)) as [|Hn]; [done|].
    apply get_None in Hn. congruence.
  - split; [intros [? ?]; done|].
    intros Hin. apply get_None in E. done.
Qed.

Lemma has_created k o : has k o = true ↔ k ∈ created o.
Proof.
  rewrite <- get_Some_created. unfold has.
  destruct (get k o); split; eauto; try done.
Qed.

Lemma created_set k v o :
  created (set k v o) = if has k o then created o else created o ++ [k].
Proof.
  unfold has, created. induction o as [|[k' v'] o IH]; simpl; [done|].
  destruct (String.eqb_spec k k') as [->|]; simpl; [done|].
  rewrite IH. by destruct (get k o).
Qed.

Lemma NoDup_created_set k v o :
  NoDup (created o) → NoDup (created (set k v o)).
Proof.
  intros Hnd. rewrite created_set.
  destruct (has k o) eqn:E; [done|].
  apply NoDup_app. split_and!; [done| |apply NoDup_singleton].
  intros x Hx Hx'. apply list_elem_of_singleton in Hx' as ->.
  apply has_created in Hx. congruence.
Qed.

Lemma insert_sorted_perm (e : N * (string * V)) l :
  insert_sorted e l ≡ₚ e :: l.
Proof.
  induction l as [|e' l IH]; simpl; [done|].
  destruct (fst e <=? fst e')%N; [done|].
  rewrite IH. apply Permutation_swap.
Qed.

Lemma index_entries_perm o :
  List.map snd (index_entries o) ≡ₚ List.filter (fun kv => is_index (fst kv)) o.
Proof.
  induction o as [|kv o IH]; simpl; [done|].
  unfold is_index at 1. destruct (array_index (fst kv)); [|done].
  rewrite insert_sorted_perm. simpl. by rewrite IH.
Qed.

Lemma filter_split (p : string * V → bool) o :
  List.filter p o ++ List.filter (fun kv => negb (p kv)) o ≡ₚ o.
Proof.
  induction o as [|kv o IH]; simpl; [done|].
  destruct (p kv); simpl.
  - by rewrite IH.
  - rewrite <- Permutation_middle. by rewrite IH.
Qed.

(** Enumeration visits every own property exactly once. *)
Lemma entries_perm o : entries o ≡ₚ o.
Proof.
  unfold entries, named_entries. rewrite index_entries_perm.
  apply (filter_split (fun kv => is_index (fst kv))).
Qed.

Lemma keys_perm o : keys o ≡ₚ created o.
Proof. unfold keys, created. by rewrite entries_perm. Qed.

Lemma elem_of_keys k o : k ∈ keys o ↔ k ∈ created o.
Proof. by rewrite keys_perm. Qed.

Lemma NoDup_keys o : NoDup (keys o) ↔ NoDup (created o).
Proof. by rewrite keys_perm. Qed.

(** Without array-index keys, enumeration order is creation order. *)
Lemma entries_named o :
  forallb (fun kv => negb (is_index (fst kv))) o = true → entries o = o.
Proof.
  intros H. unfold entries, named_entries.
  assert (index_entries o = []) as ->.
  { induction o as [|kv o IH]; simpl in *; [done|].
    apply andb_prop in H as [H1 H2]. unfold is_index in H1.
    destruct (array_index (fst kv)); [done|]. by apply IH. }
  simpl. induction o as [|kv o IH]; simpl in *; [done|].
  apply andb_prop in H as [-> H2]. by rewrite IH.
Qed.
End Facts.
End JsObjectFacts.

(** ** Naming *)

Lemma suffixed_inj name : Inj (=) (=) (suffixed name).
Proof.
  intros n m H. unfold suffixed in H.
  apply String.app_inj in H. apply String.app_inj in H.
  by apply pretty_nat_inj in H.
Qed.

Lemma makeUnique_from_spec fuel n name arr :
  ∃ k, makeUnique_from fuel n name arr = suffixed name k
       ∧ n ≤ k ≤ n + fuel
       ∧ (∀ m, n ≤ m < k → suffixed name m ∈ arr)
       ∧ (k < n + fuel → suffixed name k ∉ arr).
Proof.
  revert n. induction fuel as [|fuel IH]; intros n; simpl.
  - exists n. split_and!; [done|lia|lia|intros; lia|lia].
  - case_bool_decide as Hin.
    + destruct (IH (S n)) as (k & Hk & Hr & Hbelow & Hfree).
      exists k. split_and!; [done|lia|lia| |intros; apply Hfree; lia].
      intros m Hm. destruct (decide (m = n)) as [->|]; [done|].
      apply Hbelow. lia.
    + exists n. split_and!; [done|lia|lia|intros; lia|done].
Qed.

(** More candidates than names: one of them is free. *)
Lemma suffixes_exhausted name arr :
  ¬ (∀ m, 1 ≤ m < 2 + length arr → suffixed name m ∈ arr).
Proof.
  intros Hall.
  assert (suffixed name <$> seq 1 (S (length arr)) ⊆+ arr) as Hsub.
  { apply NoDup_submseteq.
    - apply (NoDup_fmap_2 _). apply NoDup_seq.
    - intros x (m & -> & Hm)%list_elem_of_fmap.
      apply elem_of_seq in Hm. apply Hall. lia. }
  apply submseteq_length in Hsub.
  rewrite length_fmap, length_seq in Hsub. lia.
Qed.

(** [makeUnique] returns the original name with the smallest suffix that
    is not taken. *)
Lemma makeUnique_spec name arr :
  ∃ k, 1 ≤ k
       ∧ makeUnique name arr = suffixed name k
       ∧ (suffixed name k ∉ arr)
       ∧ (∀ m, 1 ≤ m < k → suffixed name m ∈ arr).
Proof.
  unfold makeUnique.
  destruct (makeUnique_from_spec (length arr) 1 name arr)
    as (k & Hk & Hr & Hbelow & Hfree).
  exists k. split_and!; [lia|done| |done].
  destruct (decide (k < 1 + length arr)) as [|Hge]; [by apply Hfree|].
  intros Hin. apply (suffixes_exhausted name arr).
  intros m Hm. destruct (decide (m = k)) as [->|]; [done|].
  apply Hbelow. lia.
Qed.

(** ** Registration of connections and devices *)

#[local] Arguments makeUnique : simpl never.
#[local] Arguments suffixed : simpl never.
#[local] Arguments JsObject.keys : simpl never.
#[local] Arguments JsObject.entries : simpl never.

Ltac run_monad :=
  unfold after, log; unfold effect;
  unfold mbind, M_bind, mret, M_ret, get_state, modify, throw;
  simpl.

Section Registration.
Import JsObject JsObjectFacts.

Lemma has_read_handle mk k (o : Obj nat) :
  (∀ r, truthy (mk r) = true) →
  has k o = true → truthy (read_handle mk k o) = true.
Proof.
  unfold has, read_handle. intros Hmk. destruct (get k o); [auto|done].
Qed.

Lemma read_handle_own mk k r (o : Obj nat) :
  get k o = Some r → read_handle mk k o = mk r.
Proof. unfold read_handle. by intros ->. Qed.

Lemma read_handle_absent mk k (o : Obj nat) :
  get k o = None → k ∉ object_prototype → read_handle mk k o = VUndef.
Proof.
  unfold read_handle, inherited_from_object. intros -> Hk.
  destruct (String.eqb_spec k "__proto__") as [->|_].
  - exfalso. apply Hk. apply (bool_decide_unpack _). by vm_compute.
  - by rewrite bool_decide_eq_false_2.
Qed.

Lemma sigints_app t1 t2 : sigints (t1 ++ t2) = sigints t1 + sigints t2.
Proof. unfold sigints. by rewrite List.filter_app, length_app. Qed.
End Registration.

Section RegistrationClaims.
Import JsObject JsObjectFacts.








End RegistrationClaims.

(** ** Start and halt: the parts that need no join *)

Section Lifecycle.
Import JsObject JsObjectFacts.

Lemma member_assign_eq k v s : member (assign k v s) k = v.
Proof. unfold member, assign. simpl. by rewrite get_set_eq. Qed.

Lemma member_assign_ne k k' v s :
k ≠ k' → member (assign k v s) k' = member s k'.
Proof. intros Hne. unfold member, assign. simpl. by rewrite get_set_ne. Qed.

Lemma member_set_trace t s k : member (set_trace t s) k = member s k.
Proof. reflexivity. Qed.

(** C7.  [start()] on a running controller returns at once and changes
  nothing: no log line, no [connect], no [start] of a device, no
  handle touched, nothing deferred. *)
Theorem C7_start_idempotent (w : World) (callback : Value) :
running (st w) = true → start callback w = (Normal tt, w).
Proof. intros Hrun. unfold start. run_monad. by rewrite Hrun. Qed.

Lemma C7_start_idempotent_witness :
running steady = true
∧ start (VFun (FnUser "started")) (MkWorld steady [])
  = (Normal tt, MkWorld steady []).
Proof.
assert (running steady = true) as Hrun by (vm_compute; reflexivity).
split; [exact Hrun|].
apply (C7_start_idempotent (MkWorld steady [])). exact Hrun.
Defined.





(** A connection named like a method takes the method's place on the
  controller once it is started. *)
Example connection_shadows_method :
member shadowing "halt" = VFun (FnMethod "halt")
∧ member (after (startConnection 0 (fun _ _ => mret tt)) shadowing) "halt"
  = VConn 0.
Proof. split; vm_compute; reflexivity. Qed.

(** In the default work mode, [start] runs the work routine as soon as
    [_.series] returns, whether or not the phases have completed by
    then. *)
Lemma start_works_on_return (s : State) (q : list Task) (callback : Value)
    (w1 : World) :
  running s = false → workMode s = None →
  series [startConnections; startDevices] (start_done callback) (MkWorld s q)
  = (Normal tt, w1) →
  isFunction (work (st w1)) = true →
  let w := start callback (MkWorld s q) in
  fst w = Normal tt
  ∧ running (st (snd w)) = true
  ∧ pending (snd w) = pending w1
  ∧ joins (st (snd w)) = joins (st w1)
  ∧ trace (st (snd w)) =
      trace (st w1)
      ++ [ELog ("[" +:+ name (st w1) +:+ "] - " +:+ "Working.");
          EEmit "ready" VRobot]
      ++ call_trace (st w1) (work (st w1)) VRobot [VRobot].
Proof.
  intros Hrun Hmode Hseries Hwork. unfold start. run_monad.
  rewrite Hrun, Hmode. simpl. rewrite Hseries.
  unfold startWork. run_monad.
  destruct (work (st w1)) as [| | | | | | | |[]| | |]; try discriminate Hwork;
    unfold call; run_monad; split_and!; try done;
    by rewrite <- !(assoc_L (++)).
Qed.

(** C1, on the code.  With one connection and one device that both
  succeed asynchronously, [start] has emitted [ready], run the work
  routine and set [running] by the time it returns: the connection
  phase has not completed (its join counts 0 of 1, the completion is
  still pending) and the device has not been started.  The phases
  complete afterwards, and the callback of [start] fires last. *)
Theorem C1_work_before_barriers :
let w := start (VFun (FnUser "started")) (MkWorld ultron []) in
let returned := st (snd w) in
running returned = true
∧ trace returned =
    [ ELog "[Ultron] - Starting connections.";
      ELog "[Ultron] - Starting connection 'loopback'.";
      EConnect 0;
      ELog "[Ultron] - Working.";
      EEmit "ready" VRobot;
      ECall "work" VRobot [VRobot] ]
∧ joins returned = [mkJoin 1 0 VNull []]
∧ length (pending (snd w)) = 1
∧ started (dev_heap returned 0) = false
∧ ∃ final,
    run_job [0; 0] (start (VFun (FnUser "started"))) ultron = Some final
    ∧ running final = true
    ∧ trace final =
        trace returned ++
        [ ELog "[Ultron] - Starting devices.";
          ELog "[Ultron] - Starting device 'ping'.";
          EStart 0;
          ECall "started" VUndef
            [VNull; VList [VList [VUndef]; VList [VUndef]]] ].
Proof.
split_and!; [reflexivity..|].
eexists. split_and!; [by vm_compute|reflexivity|reflexivity].
Qed.


End Lifecycle.

(** ** Joins *)

Section Joins.
Import JsObject JsObjectFacts.
#[local] Arguments Nat.eqb : simpl never.

Lemma bind_ret_unit (m : M unit) (w : World) : (m;; mret tt) w = m w.
Proof. run_monad. by destruct (m w) as [[[]|e] w']. Qed.

Lemma world_eta (w : World) : MkWorld (st w) (pending w) = w.
Proof. by destruct w. Qed.

Lemma state_eta (s : State) :
  set_joins (joins s) (set_trace (trace s) s) = s.
Proof. by destruct s. Qed.

Lemma insert_last {A} (l : list A) (x y : A) :
  <[length l := y]> (l ++ [x]) = l ++ [y].
Proof.
  replace (length l) with (length l + 0) by lia. by rewrite insert_app_r.
Qed.

Lemma halt_units_eq s callback :
  halt_units s callback =
  parallel (List.map unit_of (device_units s))
    (fun _ _ => parallel (List.map unit_of (connection_units s)) callback).
Proof.
  unfold halt_units, device_units, connection_units.
  by rewrite !List.map_map.
Qed.

(** One unit that calls back at once, on a join that is not complete
    after it. *)
Lemma unit_now_step e err j finish s q js T c acc :
  joins s = js ++ [mkJoin T c VNull acc] → j = length js →
  unit_of (e, CallsBack err) (join_callback j finish) (MkWorld s q) =
  let s' := set_joins (js ++ [mkJoin T (S c) VNull (acc ++ [err])])
              (set_trace (trace s ++ [e]) s) in
  if Nat.eqb (S c) T
  then finish VNull (VList (acc ++ [err])) (MkWorld s' q)
  else (Normal tt, MkWorld s' q).
Proof.
  intros Hj ->. unfold unit_of, wrap, join_callback. run_monad.
  rewrite Hj, list_lookup_middle by done. simpl.
  rewrite Hj, insert_last.
  by destruct (Nat.eqb (S c) T).
Qed.

Lemma unit_later_step e err j finish s q :
  unit_of (e, CallsBackLater err) (join_callback j finish) (MkWorld s q) =
  (Normal tt,
   MkWorld (set_trace (trace s ++ [e]) s) (q ++ [completion j finish err])).
Proof. reflexivity. Qed.

(** All units call back at once: the join completes within the call. *)
Lemma forEach_all_now us : ∀ finish s q js T c acc,
  Forall (fun u => reports_now (snd u) = true) us → us ≠ [] →
  joins s = js ++ [mkJoin T c VNull acc] → c + length us = T →
  forEach (List.map unit_of us)
    (fun fn => fn (join_callback (length js) finish))
    (MkWorld s q) =
  finish VNull (VList (acc ++ now_outcomes us))
    (MkWorld (set_joins (js ++ [mkJoin T T VNull (acc ++ now_outcomes us)])
                (set_trace (trace s ++ List.map fst us) s)) q).
Proof.
  induction us as [|[e b] us IH]; intros finish s q js T c acc Hall Hne Hj HT;
    [done|].
  apply Forall_cons in Hall as [Hb Hall]. destruct b; try discriminate Hb.
  simpl forEach. unfold mbind at 1, M_bind at 1.
  rewrite (unit_now_step _ _ _ _ _ _ js T c acc) by done. simpl.
  destruct us as [|u us].
  - simpl in *. replace (S c) with T by lia. rewrite Nat.eqb_refl.
    destruct (finish _ _ _) as [[[]|m] w'] eqn:E; simpl; by rewrite ?E.
  - replace (Nat.eqb (S c) T) with false
      by (symmetry; apply Nat.eqb_neq; simpl in HT; lia).
    rewrite (IH finish _ q js T (S c) (acc ++ [err])); [|done|done|done|simpl in *; lia].
    simpl. by rewrite <- !(assoc_L (++)).
Qed.

Lemma join_callback_step err finish s q js T c acc :
  joins s = js ++ [mkJoin T c VNull acc] →
  join_callback (length js) finish VNull err (MkWorld s q) =
  let s' := set_joins (js ++ [mkJoin T (S c) VNull (acc ++ [err])]) s in
  if Nat.eqb (S c) T
  then finish VNull (VList (acc ++ [err])) (MkWorld s' q)
  else (Normal tt, MkWorld s' q).
Proof.
  intros Hj. unfold join_callback. run_monad.
  rewrite Hj, list_lookup_middle by done. simpl.
  rewrite Hj, insert_last.
  by destruct (Nat.eqb (S c) T).
Qed.

Lemma outcomes_length us :
  Forall (fun u => reports (snd u) = true) us →
  length (now_outcomes us) + length (later_outcomes us) = length us.
Proof.
  induction 1 as [|[e b] us Hb _ IH]; [done|].
  destruct b; try discriminate Hb; simpl in *; lia.
Qed.

Lemma all_now us :
  Forall (fun u => reports (snd u) = true) us → later_outcomes us = [] →
  Forall (fun u => reports_now (snd u) = true) us.
Proof.
  induction 1 as [|[e b] us Hb _ IH]; [done|].
  destruct b; try discriminate Hb; simpl; [|done].
  intros Hl. constructor; [done|by apply IH].
Qed.

(** Some unit calls back later: the call returns with the join open and
    the completions pending. *)
Lemma forEach_some_later us : ∀ finish s q js T c acc,
  Forall (fun u => reports (snd u) = true) us →
  joins s = js ++ [mkJoin T c VNull acc] →
  c + length (now_outcomes us) < T →
  forEach (List.map unit_of us)
    (fun fn => fn (join_callback (length js) finish)) (MkWorld s q) =
  (Normal tt,
   MkWorld
     (set_joins
        (js ++ [mkJoin T (c + length (now_outcomes us)) VNull
                  (acc ++ now_outcomes us)])
        (set_trace (trace s ++ List.map fst us) s))
     (q ++ List.map (completion (length js) finish) (later_outcomes us))).
Proof.
  induction us as [|[e b] us IH]; intros finish s q js T c acc Hall Hj HT.
  - simpl. rewrite Nat.add_0_r, !(right_id_L [] (++)), <- Hj.
    by rewrite state_eta.
  - apply Forall_cons in Hall as [Hb Hall].
    destruct b; try discriminate Hb; simpl forEach;
      unfold mbind at 1, M_bind at 1.
    + rewrite (unit_now_step _ _ _ _ _ _ js T c acc) by done. simpl in *.
      replace (Nat.eqb (S c) T) with false
        by (symmetry; apply Nat.eqb_neq; lia).
      rewrite (IH finish _ q js T (S c) (acc ++ [err])); [|done|done|lia].
      simpl. rewrite <- !(assoc_L (++)). simpl.
      by replace (c + S (length (now_outcomes us)))
        with (S (c + length (now_outcomes us))) by lia.
    + rewrite unit_later_step. simpl in *.
      rewrite (IH finish _ _ js T c acc); [|done|done|lia].
      simpl. by rewrite <- !(assoc_L (++)).
Qed.

Lemma event_loop_idle schedule s : event_loop schedule (MkWorld s []) = Some s.
Proof. by destruct schedule. Qed.

(** One turn of the event loop. *)
Lemma event_loop_turn i schedule s q t :
  q !! (i mod length q) = Some t →
  event_loop (i :: schedule) (MkWorld s q) =
  match run t s with
  | (Normal _, w') =>
      event_loop schedule
        (MkWorld (st w') (delete (i mod length q) q ++ pending w'))
  | (Thrown e, w') => Some (crashed e (st w'))
  end.
Proof.
  intros Hq. destruct q as [|t0 q0]; [by rewrite lookup_nil in Hq|].
  cbn [event_loop pending st]. by rewrite Hq.
Qed.

(** The pending completions of a join, delivered in any order: the last
    one completes the join. *)
Lemma event_loop_completions n : ∀ errs schedule,
  length errs = S n → length schedule = S n →
  ∃ outcomes, ∀ finish s js T c acc rest,
    joins s = js ++ [mkJoin T c VNull acc] → c + S n = T →
    event_loop (schedule ++ rest)
      (MkWorld s (List.map (completion (length js) finish) errs)) =
    run_job rest (finish VNull (VList (acc ++ outcomes)))
      (set_joins (js ++ [mkJoin T T VNull (acc ++ outcomes)]) s).
Proof.
  induction n as [|n IH]; intros errs schedule Herrs Hsched;
    (destruct schedule as [|i schedule]; [discriminate Hsched|]);
    (assert (i mod length errs < length errs) as Hi
       by (rewrite Herrs; apply Nat.mod_upper_bound; lia));
    destruct (lookup_lt_is_Some_2 errs _ Hi) as [err Herr].
  - exists [err]. intros finish s js T c acc rest Hj HT.
    change ((i :: schedule) ++ rest) with (i :: schedule ++ rest).
    change (List.map (completion (length js) finish) errs)
      with (completion (length js) finish <$> errs).
    rewrite (event_loop_turn _ _ _ _ (completion (length js) finish err))
      by (by rewrite length_fmap, list_lookup_fmap, Herr).
    cbn [run completion].
    rewrite (join_callback_step _ _ _ _ js T c acc) by done. cbn zeta.
    replace (S c) with T by lia. rewrite Nat.eqb_refl.
    destruct errs as [|err0 [|? ?]]; try discriminate Herrs.
    destruct schedule; [|discriminate Hsched].
    unfold run_job. cbn [fmap list_fmap length]. rewrite Nat.mod_1_r. simpl.
    destruct (finish _ _ _) as [[[]|m] w'] eqn:E; simpl; [|done].
    by rewrite world_eta.
  - destruct (IH (delete (i mod length errs) errs) schedule)
      as [outcomes Hloop].
    + rewrite length_delete by by eexists. lia.
    + simpl in Hsched. lia.
    + exists (err :: outcomes). intros finish s js T c acc rest Hj HT.
      change ((i :: schedule) ++ rest) with (i :: schedule ++ rest).
      change (List.map (completion (length js) finish) errs)
        with (completion (length js) finish <$> errs).
      rewrite (event_loop_turn _ _ _ _ (completion (length js) finish err))
        by (by rewrite length_fmap, list_lookup_fmap, Herr).
      cbn [run completion].
      rewrite (join_callback_step _ _ _ _ js T c acc) by done. cbn zeta.
      replace (Nat.eqb (S c) T) with false
        by (symmetry; apply Nat.eqb_neq; lia).
      cbn [pending st].
      rewrite (right_id_L [] (++)), <- list_fmap_delete, length_fmap.
      specialize (Hloop finish
                    (set_joins (js ++ [mkJoin T (S c) VNull (acc ++ [err])]) s)
                    js T (S c) (acc ++ [err]) rest eq_refl).
      change (List.map (completion (length js) finish) ?l)
        with (completion (length js) finish <$> l) in Hloop.
      rewrite Hloop by lia. simpl. by rewrite <- !(assoc_L (++)).
Qed.

Lemma parallel_all_now us finish s q :
  Forall (fun u => reports_now (snd u) = true) us →
  parallel (List.map unit_of us) finish (MkWorld s q) =
  finish VNull (VList (now_outcomes us))
    (MkWorld
       (set_joins
          (joins s ++ [mkJoin (length us) (length us) VNull (now_outcomes us)])
          (set_trace (trace s ++ List.map fst us) s)) q).
Proof.
  intros Hall. unfold parallel. run_monad.
  destruct us as [|u us].
  - simpl. rewrite (right_id_L [] (++)). by destruct s.
  - rewrite length_map. change (List.map unit_of (u :: us)) with
      (unit_of u :: List.map unit_of us).
    cbv iota.
    change (unit_of u :: List.map unit_of us) with (List.map unit_of (u :: us)).
    by rewrite (forEach_all_now (u :: us) finish _ q (joins s)
                  (length (u :: us)) 0 []).
Qed.

Lemma parallel_some_later us finish s q :
  Forall (fun u => reports (snd u) = true) us →
  later_outcomes us ≠ [] →
  parallel (List.map unit_of us) finish (MkWorld s q) =
  (Normal tt,
   MkWorld
     (set_joins
        (joins s ++ [mkJoin (length us) (length (now_outcomes us)) VNull
                       (now_outcomes us)])
        (set_trace (trace s ++ List.map fst us) s))
     (q ++ List.map (completion (length (joins s)) finish) (later_outcomes us))).
Proof.
  intros Hall Hlater. unfold parallel. run_monad.
  destruct us as [|u us]; [done|].
  rewrite length_map. change (List.map unit_of (u :: us)) with
    (unit_of u :: List.map unit_of us).
  cbv iota.
  change (unit_of u :: List.map unit_of us) with (List.map unit_of (u :: us)).
  rewrite (forEach_some_later (u :: us) finish _ q (joins s)
             (length (u :: us)) 0 []); [done|done|done|].
  pose proof (outcomes_length _ Hall).
  destruct (later_outcomes (u :: us)); [done|]. simpl in *. lia.
Qed.
End Joins.

(** ** The halt sequence and the error path of [start] *)

Section HaltClaims.
Import JsObject JsObjectFacts.
#[local] Arguments Nat.eqb : simpl never.

Lemma device_units_events s :
  List.map fst (device_units s) = List.map EHalt (values (devices s)).
Proof. unfold device_units. by rewrite List.map_map. Qed.

Lemma connection_units_events s :
  List.map fst (connection_units s)
  = List.map EDisconnect (values (connections s)).
Proof. unfold connection_units. by rewrite List.map_map. Qed.

Lemma device_units_report s :
  (∀ d, d ∈ values (devices s) → reports (halt_impl (dev_heap s d)) = true) →
  Forall (fun u => reports (snd u) = true) (device_units s).
Proof.
  intros H. unfold device_units. apply Forall_forall.
  intros u (d & -> & Hd)%list_elem_of_fmap. by apply H.
Qed.

Lemma connection_units_report s :
  (∀ c, c ∈ values (connections s) →
        reports (disconnect_impl (conn_heap s c)) = true) →
  Forall (fun u => reports (snd u) = true) (connection_units s).
Proof.
  intros H. unfold connection_units. apply Forall_forall.
  intros u (c & -> & Hc)%list_elem_of_fmap. by apply H.
Qed.

(** A join all of whose units report, run as a job of its own: after as
    many turns as there are deferred completions, in whatever order they
    are delivered, the join has completed and its continuation runs. *)
Lemma parallel_completes us schedule :
  Forall (fun u => reports (snd u) = true) us →
  length schedule = length (later_outcomes us) →
  ∃ outcomes, ∀ finish s rest,
    run_job (schedule ++ rest) (parallel (List.map unit_of us) finish) s =
    run_job rest (finish VNull (VList outcomes))
      (set_joins
         (joins s ++ [mkJoin (length us) (length us) VNull outcomes])
         (set_trace (trace s ++ List.map fst us) s)).
Proof.
  intros Hall Hsched.
  destruct (later_outcomes us) as [|err errs] eqn:Hlater.
  - exists (now_outcomes us). intros finish s rest.
    destruct schedule; [|discriminate Hsched]. unfold run_job.
    by rewrite (parallel_all_now us finish s []) by by apply all_now.
  - destruct (event_loop_completions (length errs) (err :: errs) schedule
                eq_refl Hsched) as [outcomes Hloop].
    exists (now_outcomes us ++ outcomes). intros finish s rest.
    unfold run_job at 1.
    rewrite (parallel_some_later us finish s []) by (done || by rewrite Hlater).
    simpl app. rewrite Hlater.
    rewrite (Hloop finish _ (joins s) (length us)
               (length (now_outcomes us)) (now_outcomes us)); [done|done|].
    pose proof (outcomes_length _ Hall) as Hlen. rewrite Hlater in Hlen.
    simpl in *. lia.
Qed.



#[local] Arguments member : simpl never.
#[local] Arguments call : simpl never.

Lemma call_function f this args s s0 q :
  isFunction f = true → name s = name s0 →
  call f this args (MkWorld s q) =
  (Normal tt, MkWorld (set_trace (trace s ++ call_trace s0 f this args) s) q).
Proof.
  destruct f as [| | | | | | | |[]| | |]; intros [=] Hname;
    unfold call, call_trace; run_monad; by rewrite ?Hname.
Qed.

Lemma member_error_frame s s' :
  own s' = own s → inherited s' = inherited s →
  member s' "error" = member s "error".
Proof. unfold member. by intros -> ->. Qed.

(** What the callback of the error path does, in a state [s'] that
    differs from [s] by its trace, its joins and [running]. *)
Lemma report_start_error_runs err a b s s' q :
  own s' = own s → name s' = name s → inherited s' = inherited s →
  listeners s' = listeners s →
  report_start_error err a b (MkWorld s' q) =
  (Normal tt,
   MkWorld
     (set_trace
        (trace s'
         ++ (if isFunction (member s "error")
             then call_trace s (member s "error") VRobot [err]
             else [])
         ++ (if 0 <? listeners s "error" then [EEmit "error" err] else []))
        s') q).
Proof.
  intros Hown Hname Hinh Hlis. unfold report_start_error. run_monad.
  rewrite (member_error_frame s s') by done.
  destruct (isFunction (member s "error")) eqn:Hfn.
  - rewrite (call_function _ _ _ _ s) by done. simpl. rewrite Hlis.
    destruct (0 <? listeners s "error"); run_monad.
    + by rewrite <- !(assoc_L (++)).
    + by rewrite (right_id_L [] (++)).
  - simpl. rewrite Hlis.
    destruct (0 <? listeners s "error"); run_monad; [done|].
    rewrite (right_id_L [] (++)). by destruct s'.
Qed.


End HaltClaims.

(** ** Construction and the command table *)

Section Construction.
Import JsObject JsObjectFacts.
#[local] Arguments member : simpl never.
#[local] Arguments call : simpl never.
#[local] Arguments merge_option : simpl never.

Lemma untouched_refl s : untouched s s.
Proof. done. Qed.

Lemma untouched_trans s1 s2 s3 :
  untouched s1 s2 → untouched s2 s3 → untouched s1 s3.
Proof. unfold untouched. intros (-> & -> & -> & ->) (-> & -> & -> & ->). done. Qed.

Lemma connection_untouched k conn s q :
  ∃ s', connection k conn (MkWorld s q) = (Normal tt, MkWorld s' q)
        ∧ untouched s s'.
Proof.
  unfold connection. run_monad.
  destruct (truthy (read_handle VConn k (connections s))); run_monad;
    by eexists.
Qed.

Lemma device_untouched k dev s q :
  ∃ s', device k dev (MkWorld s q) = (Normal tt, MkWorld s' q)
        ∧ untouched s s'.
Proof.
  unfold device. run_monad.
  destruct (truthy (read_handle VDev k (devices s))); run_monad;
    destruct (ds_connection dev) as [| | | |wanted| | | | | | |]; run_monad;
    try (by eexists);
    destruct (is_nullish (read_handle VConn wanted (connections s)));
    run_monad; by eexists.
Qed.

Lemma forEach_untouched {A} (f : A → M unit) (l : list A) :
  (∀ x s q, ∃ s', f x (MkWorld s q) = (Normal tt, MkWorld s' q)
                  ∧ untouched s s') →
  ∀ s q, ∃ s', forEach l f (MkWorld s q) = (Normal tt, MkWorld s' q)
               ∧ untouched s s'.
Proof.
  intros Hf. induction l as [|x l IH]; intros s q; simpl.
  - by eexists.
  - destruct (Hf x s q) as (s1 & E1 & H1).
    destruct (IH s1 q) as (s2 & E2 & H2).
    exists s2. unfold mbind, M_bind. rewrite E1, E2.
    split; [done|by eapply untouched_trans].
Qed.

(** The new controller after [initRobot]: no command, no property
    assigned by name, a work routine. *)
Lemma initRobot_result opts s q :
  ∃ s', initRobot opts (MkWorld (new_object s) q) = (Normal tt, MkWorld s' q)
        ∧ commands s' = [] ∧ own s' = [] ∧ inherited s' = inherited s
        ∧ is_undefined (work s') = false.
Proof.
  unfold initRobot, new_object. run_monad.
  set (w0 := if truthy (opt "work" opts) then opt "work" opts
             else opt "play" opts).
  assert (∀ sa (devs : Obj DevSpec),
            own sa = [] → inherited sa = inherited s → commands sa = [] →
            is_undefined (work sa) = false →
            ∃ s', (let (r, w') :=
                     forEach (entries (opt_connections opts))
                       (fun kv => connection (fst kv) (snd kv)) (MkWorld sa q) in
                   match r with
                   | Normal _ =>
                       forEach (entries devs)
                         (fun kv => device (fst kv) (snd kv)) w'
                   | Thrown e => (Thrown e, w')
                   end) = (Normal tt, MkWorld s' q)
                  ∧ commands s' = [] ∧ own s' = []
                  ∧ inherited s' = inherited s
                  ∧ is_undefined (work s') = false) as Hloops.
  { intros sa devs Hown Hinh Hcmd Hwork.
    destruct (forEach_untouched (fun kv => connection (fst kv) (snd kv))
                (entries (opt_connections opts))
                (fun x => connection_untouched _ _) sa q) as (s1 & E1 & H1).
    destruct (forEach_untouched (fun kv => device (fst kv) (snd kv))
                (entries devs)
                (fun x => device_untouched _ _) s1 q) as (s2 & E2 & H2).
    exists s2. rewrite E1, E2.
    destruct (untouched_trans _ _ _ H1 H2) as (-> & -> & -> & ->). done. }
  destruct (truthy (opt "name" opts)); run_monad;
    destruct (truthy w0) eqn:Hw0; run_monad.
  all: apply Hloops; try done; simpl.
  all: by destruct w0.
Qed.

Lemma consumed_iff s k :
  consumed s k = true
  ↔ k ∈ robot_fields ∨ k ∈ robot_methods ∨ k ∈ inherited s
    ∨ k ∈ object_prototype.
Proof. unfold consumed. rewrite bool_decide_eq_true, !elem_of_app. tauto. Qed.

Lemma field_consumed s k : k ∈ robot_fields → consumed s k = true.
Proof. intros H. apply consumed_iff. by left. Qed.

(** On a controller without properties assigned by name, the members are
    the consumed names. *)
Lemma member_fresh s k :
  own s = [] → is_undefined (work s) = false →
  is_undefined (member s k) = negb (consumed s k).
Proof.
  intros Hown Hwork. unfold member. rewrite Hown. simpl.
  destruct (String.eqb_spec k "name") as [->|N1];
    [by rewrite field_consumed by (apply (bool_decide_unpack _); by vm_compute)|].
  destruct (String.eqb_spec k "running") as [->|N2];
    [by rewrite field_consumed by (apply (bool_decide_unpack _); by vm_compute)|].
  destruct (String.eqb_spec k "connections") as [->|N3];
    [by rewrite field_consumed by (apply (bool_decide_unpack _); by vm_compute)|].
  destruct (String.eqb_spec k "devices") as [->|N4];
    [by rewrite field_consumed by (apply (bool_decide_unpack _); by vm_compute)|].
  destruct (String.eqb_spec k "work") as [->|N5];
    [by rewrite field_consumed by (apply (bool_decide_unpack _); by vm_compute)|].
  destruct (String.eqb_spec k "commands") as [->|N6];
    [by rewrite field_consumed by (apply (bool_decide_unpack _); by vm_compute)|].
  assert (k ∉ robot_fields) as Hfields.
  { unfold robot_fields. rewrite !not_elem_of_cons. split_and!; try done.
    apply not_elem_of_nil. }
  case_bool_decide as Hm.
  { rewrite (proj2 (consumed_iff s k)) by auto. done. }
  case_bool_decide as Hi.
  { rewrite (proj2 (consumed_iff s k)) by auto. done. }
  unfold inherited_from_object.
  destruct (String.eqb_spec k "__proto__") as [->|N7].
  { rewrite (proj2 (consumed_iff s "__proto__")); [done|].
    right. right. right. apply (bool_decide_unpack _). by vm_compute. }
  case_bool_decide as Hp.
  - rewrite (proj2 (consumed_iff s k)) by auto. done.
  - destruct (consumed s k) eqn:E; [|done].
    apply consumed_iff in E. tauto.
Qed.

Lemma elem_of_created_set {V} (k x : string) (v : V) (o : Obj V) :
  x ∈ created (set k v o) ↔ x = k ∨ x ∈ created o.
Proof.
  rewrite created_set. destruct (has k o) eqn:E.
  - apply has_created in E. split; [auto|]. by intros [->|].
  - rewrite elem_of_app, list_elem_of_singleton. tauto.
Qed.

Lemma get_entries {V} (k : string) (v : V) (o : Obj V) :
  NoDup (created o) → (k, v) ∈ entries o ↔ get k o = Some v.
Proof.
  intros Hnd. rewrite entries_perm.
  induction o as [|[k' v'] o IH]; simpl.
  - split; [by intros ?%elem_of_nil|done].
  - unfold created in Hnd. simpl in Hnd. apply NoDup_cons in Hnd as [Hk Hnd].
    rewrite elem_of_cons, (IH Hnd).
    destruct (String.eqb_spec k k') as [->|Hne].
    + split.
      * intros [[= ->]|Hget]; [done|].
        exfalso. apply Hk. apply get_Some_created. by eexists.
      * intros [= ->]. by left.
    + split; [intros [[= -> _]|]; done|auto].
Qed.

Lemma member_set_commands c s k : member (set_commands c s) k = member s k.
Proof. reflexivity. Qed.

(** The merge of the configuration keys [l]. *)
Lemma merge_options_result opts l : ∀ s q,
  NoDup (List.map fst l) →
  ∃ s', forEach l (merge_option opts) (MkWorld s q) = (Normal tt, MkWorld s' q)
    ∧ (is_nullish (opt "commands" opts) = true →
       ∀ k, k ∈ created (commands s')
            ↔ k ∈ created (commands s)
              ∨ ∃ o, (k, o) ∈ l ∧ isFunction (as_value o) = true
                     ∧ is_undefined (member s k) = true)
    ∧ (is_nullish (opt "commands" opts) = false → commands s' = commands s).
Proof.
  induction l as [|[k o] l IH]; intros s q Hnd.
  - exists s. split_and!; [done| |done].
    intros _ k. split; [auto|]. intros [|(o & []%elem_of_nil & _)]; done.
  - simpl in Hnd. apply NoDup_cons in Hnd as [Hk Hnd].
    assert (∀ s1,
              (∀ k', k' ≠ k → member s1 k' = member s k') →
              ∀ k' o', (k', o') ∈ l →
                       is_undefined (member s1 k') = is_undefined (member s k'))
      as Hframe.
    { intros s1 Hs1 k' o' Hin. rewrite Hs1; [done|].
      intros ->. apply Hk. apply list_elem_of_fmap. by exists (k, o'). }
    simpl forEach. unfold mbind at 1, M_bind at 1.
    unfold merge_option at 1. run_monad.
    destruct (is_undefined (member s k)) eqn:Hundef; simpl.
    + destruct (isFunction (as_value o)) eqn:Hfn; run_monad.
      * destruct (is_nullish (opt "commands" opts)) eqn:Hnull; run_monad.
        -- destruct (IH (set_commands (set k (as_value o) (commands s))
                           (assign k (as_value o) s)) q Hnd)
             as (s' & E & Hin & Hout).
           exists s'. split_and!; [done| |done].
           intros _ k'. rewrite (Hin eq_refl). simpl.
           rewrite elem_of_created_set. split.
           ++ intros [[->|Hc]|(o' & Ho' & Hfn' & Hu')].
              ** right. exists o. split_and!; [left|done|done].
              ** by left.
              ** right. exists o'. split_and!; [by right|done|].
                 rewrite <- Hu'. symmetry.
                 apply (Hframe _ (fun k0 Hk0 => member_assign_ne k k0 _ s
                                                  (not_eq_sym Hk0)) k' o' Ho').
           ++ intros [Hc|(o' & [[= -> ->]|Ho']%elem_of_cons & Hfn' & Hu')].
              ** left. by right.
              ** left. by left.
              ** right. exists o'. split_and!; [done|done|].
                 rewrite <- Hu'.
                 apply (Hframe _ (fun k0 Hk0 => member_assign_ne k k0 _ s
                                                  (not_eq_sym Hk0)) k' o' Ho').
        -- destruct (IH (assign k (as_value o) s) q Hnd)
             as (s' & E & Hin & Hout).
           exists s'. split_and!; [done|done|].
           intros _. by rewrite (Hout eq_refl).
      * destruct (IH (assign k (as_value o) s) q Hnd)
          as (s' & E & Hin & Hout).
        exists s'. split_and!; [done| |].
        -- intros Hnull k'. rewrite (Hin Hnull). simpl. split.
           ++ intros [Hc|(o' & Ho' & Hfn' & Hu')]; [by left|].
              right. exists o'. split_and!; [by right|done|].
              rewrite <- Hu'. symmetry.
              apply (Hframe _ (fun k0 Hk0 => member_assign_ne k k0 _ s
                                               (not_eq_sym Hk0)) k' o' Ho').
           ++ intros [Hc|(o' & [[= -> ->]|Ho']%elem_of_cons & Hfn' & Hu')];
                [by left|congruence|].
              right. exists o'. split_and!; [done|done|].
              rewrite <- Hu'.
              apply (Hframe _ (fun k0 Hk0 => member_assign_ne k k0 _ s
                                               (not_eq_sym Hk0)) k' o' Ho').
        -- intros Hnull. by rewrite (Hout Hnull).
    + destruct (IH s q Hnd) as (s' & E & Hin & Hout).
      exists s'. split_and!; [done| |done].
      intros Hnull k'. rewrite (Hin Hnull). split.
      * intros [Hc|(o' & Ho' & Hfn' & Hu')]; [by left|].
        right. exists o'. split_and!; [by right|done|done].
      * intros [Hc|(o' & [[= -> ->]|Ho']%elem_of_cons & Hfn' & Hu')];
          [by left|congruence|].
        right. by exists o'.
Qed.



End Construction.

(** ** The registry *)

Section Registry.
Import JsObject JsObjectFacts.

Lemma steps_ret (R : State → State → Prop) :
  (∀ s, R s s) → steps R (mret tt).
Proof. intros Hrefl s q. by exists s. Qed.

Lemma steps_bind (R : State → State → Prop) (m k : M unit) :
  (∀ s1 s2 s3, R s1 s2 → R s2 s3 → R s1 s3) →
  steps R m → steps R k → steps R (m;; k).
Proof.
  intros Htrans Hm Hk s q.
  destruct (Hm s q) as (s1 & E1 & H1). destruct (Hk s1 q) as (s2 & E2 & H2).
  exists s2. unfold mbind, M_bind. rewrite E1, E2. eauto.
Qed.

Lemma steps_forEach {A} (R : State → State → Prop) (f : A → M unit)
    (l : list A) :
  (∀ s, R s s) → (∀ s1 s2 s3, R s1 s2 → R s2 s3 → R s1 s3) →
  (∀ x, steps R (f x)) → steps R (forEach l f).
Proof.
  intros Hrefl Htrans Hf. induction l as [|x l IH]; simpl.
  - by apply steps_ret.
  - by apply steps_bind.
Qed.

Lemma steps_weaken (R R' : State → State → Prop) (m : M unit) :
  (∀ s s', R s s' → R' s s') → steps R m → steps R' m.
Proof.
  intros HR Hm s q. destruct (Hm s q) as (s' & E & H). eauto.
Qed.

Lemma invocations_app t1 t2 :
  invocations (t1 ++ t2) = invocations t1 ++ invocations t2.
Proof. unfold invocations. by rewrite List.filter_app. Qed.

Lemma same_controller_refl s : same_controller s s.
Proof. by repeat split. Qed.

Lemma same_controller_trans s1 s2 s3 :
  same_controller s1 s2 → same_controller s2 s3 → same_controller s1 s3.
Proof.
  unfold same_controller.
  intros (-> & -> & -> & -> & -> & -> & ->) (-> & -> & -> & -> & -> & -> & ->).
  done.
Qed.

Lemma same_registry_refl s : same_registry s s.
Proof. by repeat split. Qed.

Lemma same_registry_trans s1 s2 s3 :
  same_registry s1 s2 → same_registry s2 s3 → same_registry s1 s3.
Proof.
  unfold same_registry.
  intros (-> & -> & -> & -> & -> & ->) (-> & -> & -> & -> & -> & ->). done.
Qed.

Lemma same_registry_consistent s s' :
  same_registry s s' → consistent s → consistent s'.
Proof.
  unfold same_registry, consistent.
  by intros (-> & -> & -> & -> & -> & ->).
Qed.

(** A name that reads as falsy in a map of handles is not a key of it. *)
Lemma falsy_read_handle mk k (o : Obj nat) :
  (∀ r, truthy (mk r) = true) →
  truthy (read_handle mk k o) = false → get k o = None.
Proof.
  unfold read_handle. intros Hmk. destruct (get k o) as [r|]; [|done].
  by rewrite Hmk.
Qed.

(** The name under which [connection] registers a connection asked for
    as [asked] is not a key yet. *)
Lemma connection_name_fresh asked (o : Obj nat) :
  get (if truthy (read_handle VConn asked o)
       then makeUnique asked (keys o) else asked) o = None.
Proof.
  destruct (truthy (read_handle VConn asked o)) eqn:E.
  - destruct (makeUnique_spec asked (keys o)) as (n & _ & -> & Hfree & _).
    apply get_None. by rewrite <- elem_of_keys.
  - by apply (falsy_read_handle VConn).
Qed.

Lemma device_name_fresh asked (o : Obj nat) :
  get (if truthy (read_handle VDev asked o)
       then makeUnique asked (keys o) else asked) o = None.
Proof.
  destruct (truthy (read_handle VDev asked o)) eqn:E.
  - destruct (makeUnique_spec asked (keys o)) as (n & _ & -> & Hfree & _).
    apply get_None. by rewrite <- elem_of_keys.
  - by apply (falsy_read_handle VDev).
Qed.

Lemma created_set_fresh {V} k (v : V) (o : Obj V) :
  get k o = None → created (set k v o) = created o ++ [k].
Proof. intros H. rewrite created_set. unfold has. by rewrite H. Qed.

Lemma get_set_fresh {V} k k' (v r : V) (o : Obj V) :
  get k o = None → get k' o = Some r → get k' (set k v o) = Some r.
Proof.
  intros Hk Hk'. rewrite get_set_ne; [done|]. intros ->. congruence.
Qed.

(** The state that [connection] leaves. *)
Lemma connection_state asked conn s q :
  let k := if truthy (read_handle VConn asked (connections s))
           then makeUnique asked (keys (connections s)) else asked in
  ∃ t,
    connection asked conn (MkWorld s q) =
    (Normal tt,
     MkWorld
       (set_connections (set k (next_conn s) (connections s))
          (set_conn_heap
             (upd (next_conn s) (initializer_adaptor k conn) (conn_heap s))
             (S (next_conn s))
             (set_trace (trace s ++ t) s))) q)
    ∧ invocations t = [] ∧ sigints t = 0
    ∧ Forall (fun e => is_notice e = true) t.
Proof.
  unfold connection. run_monad.
  destruct (truthy (read_handle VConn asked (connections s))); run_monad.
  - eexists [_]. split_and!; [done|done|done|]. by repeat constructor.
  - exists []. rewrite (right_id_L [] (++)). by destruct s.
Qed.

(** The state that [device] leaves. *)
Lemma device_state asked dev s q :
  let k := if truthy (read_handle VDev asked (devices s))
           then makeUnique asked (keys (devices s)) else asked in
  let reference :=
    match ds_connection dev with
    | VStr wanted => read_handle VConn wanted (connections s)
    | other =>
        match keys (connections s) with
        | c :: _ => read_handle VConn c (connections s)
        | [] => other
        end
    end in
  ∃ t,
    device asked dev (MkWorld s q) =
    (Normal tt,
     MkWorld
       (set_devices (set k (next_dev s) (devices s))
          (set_dev_heap
             (upd (next_dev s) (initializer_driver k reference dev) (dev_heap s))
             (S (next_dev s))
             (set_trace (trace s ++ t) s))) q)
    ∧ invocations t = []
    ∧ sigints t =
        match ds_connection dev with
        | VStr wanted =>
            if is_nullish (read_handle VConn wanted (connections s))
            then 1 else 0
        | _ => 0
        end
    ∧ Forall (fun e => is_notice e = true) t.
Proof.
  unfold device. run_monad.
  destruct (truthy (read_handle VDev asked (devices s))); run_monad;
    destruct (ds_connection dev) as [| | | |wanted| | | | | | |]; run_monad;
    try (eexists [_]; rewrite <- ?(assoc_L (++));
         split_and!; [done|done|done|by repeat constructor]);
    try (exists []; rewrite (right_id_L [] (++)); by destruct s);
    destruct (is_nullish (read_handle VConn wanted (connections s)));
    run_monad;
    try (eexists [_; _; _]; rewrite <- ?(assoc_L (++));
         split_and!; [done|done|done|by repeat constructor]);
    try (eexists [_; _]; rewrite <- ?(assoc_L (++));
         split_and!; [done|done|done|by repeat constructor]);
    try (eexists [_]; rewrite <- ?(assoc_L (++));
         split_and!; [done|done|done|by repeat constructor]);
    try (exists []; rewrite (right_id_L [] (++)); by destruct s).
Qed.

Lemma connection_consistent asked conn s :
  consistent s → consistent (after (connection asked conn) s).
Proof.
  intros (Hnc & Hnd & Hc & Hd).
  destruct (connection_state asked conn s []) as (t & E & _).
  unfold after. rewrite E. clear E. simpl.
  pose proof (connection_name_fresh asked (connections s)) as Hfresh.
  set (k := if truthy (read_handle VConn asked (connections s))
            then makeUnique asked (keys (connections s)) else asked) in *.
  split_and!; simpl.
  - by apply NoDup_created_set.
  - done.
  - intros k' c. destruct (decide (k' = k)) as [->|Hne].
    + rewrite get_set_eq. intros [= <-]. unfold upd.
      rewrite Nat.eqb_refl. split; [done|lia].
    + rewrite get_set_ne by done. intros Hget.
      destruct (Hc _ _ Hget) as [Hname Hlt]. unfold upd.
      destruct (Nat.eqb_spec c (next_conn s)); [lia|]. split; [done|lia].
  - done.
Qed.

Lemma device_consistent asked dev s :
  consistent s → consistent (after (device asked dev) s).
Proof.
  intros (Hnc & Hnd & Hc & Hd).
  destruct (device_state asked dev s []) as (t & E & _).
  unfold after. rewrite E. clear E. simpl.
  pose proof (device_name_fresh asked (devices s)) as Hfresh.
  set (k := if truthy (read_handle VDev asked (devices s))
            then makeUnique asked (keys (devices s)) else asked) in *.
  split_and!; simpl.
  - done.
  - by apply NoDup_created_set.
  - done.
  - intros k' d. destruct (decide (k' = k)) as [->|Hne].
    + rewrite get_set_eq. intros [= <-]. unfold upd.
      rewrite Nat.eqb_refl. split; [done|lia].
    + rewrite get_set_ne by done. intros Hget.
      destruct (Hd _ _ Hget) as [Hname Hlt]. unfold upd.
      destruct (Nat.eqb_spec d (next_dev s)); [lia|]. split; [done|lia].
Qed.


End Registry.

Section Constructor.
Import JsObject JsObjectFacts.
#[local] Arguments member : simpl never.
#[local] Arguments call : simpl never.

(** What a registration leaves alone, and what it keeps. *)
Lemma connection_registers k conn :
  steps (fun s s' => untouched s s' ∧ same_controller s s'
                     ∧ (consistent s → consistent s'))
    (connection k conn).
Proof.
  intros s q. destruct (connection_state k conn s q) as (t & E & Hinv & _).
  eexists. split; [exact E|]. split_and!.
  - done.
  - repeat split. simpl. by rewrite invocations_app, Hinv, (right_id_L [] (++)).
  - intros Hs. pose proof (connection_consistent k conn s Hs) as H.
    unfold after in H.
    destruct (connection_state k conn s []) as (t0 & E0 & _).
    rewrite E0 in H. simpl in H.
    destruct H as (H1 & H2 & H3 & H4). by split_and!.
Qed.

Lemma device_registers k dev :
  steps (fun s s' => untouched s s' ∧ same_controller s s'
                     ∧ (consistent s → consistent s'))
    (device k dev).
Proof.
  intros s q. destruct (device_state k dev s q) as (t & E & Hinv & _).
  eexists. split; [exact E|]. split_and!.
  - done.
  - repeat split. simpl. by rewrite invocations_app, Hinv, (right_id_L [] (++)).
  - intros Hs. pose proof (device_consistent k dev s Hs) as H.
    unfold after in H.
    destruct (device_state k dev s []) as (t0 & E0 & _).
    rewrite E0 in H. simpl in H.
    destruct H as (H1 & H2 & H3 & H4). by split_and!.
Qed.

Lemma registers_refl s :
  untouched s s ∧ same_controller s s ∧ (consistent s → consistent s).
Proof. split_and!; [done|apply same_controller_refl|done]. Qed.

Lemma registers_trans s1 s2 s3 :
  untouched s1 s2 ∧ same_controller s1 s2 ∧ (consistent s1 → consistent s2) →
  untouched s2 s3 ∧ same_controller s2 s3 ∧ (consistent s2 → consistent s3) →
  untouched s1 s3 ∧ same_controller s1 s3 ∧ (consistent s1 → consistent s3).
Proof.
  intros (U1 & C1 & K1) (U2 & C2 & K2). split_and!.
  - by eapply untouched_trans.
  - by eapply same_controller_trans.
  - auto.
Qed.

(** The controller that [initRobot] leaves, from any state. *)
Lemma initRobot_state opts s q :
  ∃ s', initRobot opts (MkWorld s q) = (Normal tt, MkWorld s' q)
    ∧ consistent s'
    ∧ running s' = false
    ∧ name s' = (if truthy (opt "name" opts) then to_str (opt "name" opts)
                 else "Robot " +:+ pretty (robot_id s))
    ∧ robot_id s' = (if truthy (opt "name" opts) then robot_id s
                     else S (robot_id s))
    ∧ workMode s' = workMode s ∧ listeners s' = listeners s
    ∧ joins s' = joins s ∧ own s' = own s ∧ inherited s' = inherited s
    ∧ commands s' = []
    ∧ truthy (work s') = true
    ∧ invocations (trace s') = invocations (trace s).
Proof.
  unfold initRobot. run_monad.
  set (w0 := if truthy (opt "work" opts) then opt "work" opts
             else opt "play" opts).
  set (R := fun s s' => untouched s s' ∧ same_controller s s'
                        ∧ (consistent s → consistent s')).
  assert (∀ (devs : Obj DevSpec),
            steps R (forEach (entries (opt_connections opts))
                       (fun kv => connection (fst kv) (snd kv));;
                     forEach (entries devs)
                       (fun kv => device (fst kv) (snd kv)))) as Hloops.
  { intros devs. apply steps_bind; [apply registers_trans| |].
    - apply steps_forEach;
        [apply registers_refl|apply registers_trans|].
      intros x. apply connection_registers.
    - apply steps_forEach;
        [apply registers_refl|apply registers_trans|].
      intros x. apply device_registers. }
  assert (∀ sa, connections sa = [] → devices sa = [] → consistent sa) as Hempty.
  { intros sa Hc Hd. unfold consistent. rewrite Hc, Hd. simpl.
    split_and!; try apply NoDup_nil_2; done. }
  unfold steps, mbind, M_bind in Hloops.
  destruct (truthy (opt "name" opts)); run_monad;
    destruct (truthy w0) eqn:Hw0; run_monad.
  all: match goal with
       | |- ∃ s', (let (_, _) := forEach _ _ (MkWorld ?sa _) in
                   match _ with
                   | Normal _ => forEach (entries ?devs) _ _
                   | Thrown e => _
                   end) = _ ∧ _ =>
           destruct (Hloops devs sa q)
             as (s' & E & (Hc & Ho & Hi & Hw) & HC & HK)
       end.
  all: exists s'; split; [exact E|].
  all: destruct HC as (Hn & Hr & Hid & Hm & Hl & Hj & Ht).
  all: rewrite Hn, Hr, Hid, Hm, Hl, Hj, Ht, Hc, Ho, Hi, Hw; simpl.
  all: split_and!; try done; try (apply HK, Hempty; done).
Qed.

(** The merge of a configuration key touches the properties assigned by
    name and the command table only. *)
Lemma merge_option_keeps opts kv :
  steps (fun s s' => same_controller s s' ∧ same_registry s s'
                     ∧ work s' = work s ∧ inherited s' = inherited s)
    (merge_option opts kv).
Proof.
  intros s q. destruct kv as [k o]. unfold merge_option. run_monad.
  destruct (is_undefined (member s k)); simpl;
    [|eexists; split; [done|by repeat split]].
  destruct (isFunction (as_value o)); run_monad;
    [|eexists; split; [done|by repeat split]].
  destruct (is_nullish (opt "commands" opts)); run_monad;
    (eexists; split; [done|by repeat split]).
Qed.

Lemma merge_options_keep opts l :
  steps (fun s s' => same_controller s s' ∧ same_registry s s'
                     ∧ work s' = work s ∧ inherited s' = inherited s)
    (forEach l (merge_option opts)).
Proof.
  apply steps_forEach.
  - intros s. split_and!;
      [apply same_controller_refl|apply same_registry_refl|done|done].
  - intros s1 s2 s3 (C1 & R1 & W1 & I1) (C2 & R2 & W2 & I2). split_and!.
    + by eapply same_controller_trans.
    + by eapply same_registry_trans.
    + congruence.
    + congruence.
  - intros kv. apply merge_option_keeps.
Qed.

(** The task that the constructor queues in the automatic mode. *)
Lemma Robot_result validate mode opts s q :
  let w := Robot validate mode opts (MkWorld s q) in
  fst w = Normal tt →
  ∃ s1 s2,
    initRobot opts (MkWorld (new_object s) q) = (Normal tt, MkWorld s1 q)
    ∧ forEach (entries opts) (merge_option opts) (MkWorld s1 q)
      = (Normal tt, MkWorld s2 q)
    ∧ (∃ cmds t, st (snd w) = set_commands cmds (set_trace (trace s2 ++ t) s2)
                 ∧ invocations t = [])
    ∧ pending (snd w) =
        q ++ (if String.eqb (fetch mode "manual") "auto"
              then [MkTask (fun s => start VUndef (MkWorld s []))] else []).
Proof.
  cbv zeta. unfold Robot.
  destruct (validate opts) as [message|]; [by intros [=]|].
  destruct (initRobot_state opts (new_object s) q) as (s1 & E1 & _).
  destruct (merge_options_keep opts (entries opts) s1 q) as (s2 & E2 & _).
  match goal with |- fst ?W = _ → _ => set (w := W) end.
  pose proof (eq_refl w) as Ew. unfold w at 2 in Ew.
  unfold mbind at 1, M_bind at 1 in Ew. unfold modify at 1 in Ew.
  cbv iota in Ew. unfold mbind at 1, M_bind at 1 in Ew.
  simpl st in Ew. simpl pending in Ew. rewrite E1 in Ew.
  unfold mbind at 1, M_bind at 1 in Ew. rewrite E2 in Ew. clearbody w.
  subst w. intros Hok. exists s1, s2. split; [done|]. split; [done|].
  revert Hok.
  assert (∀ (m : M unit),
            (∀ r w', m (MkWorld s2 q) = (r, w') →
                     r = Normal tt →
                     pending w' = q
                     ∧ ∃ cmds t, st w' = set_commands cmds
                                           (set_trace (trace s2 ++ t) s2)
                                 ∧ invocations t = []) →
            let w := (m;; (if String.eqb (fetch mode "manual") "auto"
                           then defer (start VUndef) else mret tt))
                       (MkWorld s2 q) in
            fst w = Normal tt →
            (∃ cmds t, st (snd w) = set_commands cmds
                                      (set_trace (trace s2 ++ t) s2)
                       ∧ invocations t = [])
            ∧ pending (snd w) =
                q ++ (if String.eqb (fetch mode "manual") "auto"
                      then [MkTask (fun s => start VUndef (MkWorld s []))]
                      else [])) as Hauto.
  { intros m Hm. cbv zeta. unfold mbind, M_bind.
    destruct (m (MkWorld s2 q)) as [[[]|e] w'] eqn:Em; [|by intros [=]].
    destruct (Hm _ _ eq_refl eq_refl) as (Hq & Hst).
    destruct (String.eqb (fetch mode "manual") "auto"); simpl; intros _.
    - by rewrite Hq.
    - by rewrite Hq, (right_id_L [] (++)). }
  apply Hauto. clear Hauto. intros r w'.
  assert (s2 = set_commands (commands s2) (set_trace (trace s2 ++ []) s2))
    as Hsame by (rewrite (right_id_L [] (++)); by destruct s2).
  destruct (truthy (opt "commands" opts)); run_monad.
  - destruct (get "commands" opts) as [[v|id returns|m|cs|ds]|] eqn:Hget;
      run_monad.
    + destruct v as [| | | | | | | |f| | |]; run_monad;
        try (intros [= <- <-]; done).
      destruct f; unfold call; run_monad; by intros [= <- <-].
    + destruct returns as [v'|id' returns'|m'|cs'|ds']; run_monad;
        intros [= <- <-]; try done; intros _; simpl;
        (split; [done|by eexists _, [_]]).
    + intros [= <- <-] _. simpl. split; [done|].
      exists m, []. by rewrite (right_id_L [] (++)).
    + intros [= <- <-] _. simpl. split; [done|].
      eexists _, []. by rewrite (right_id_L [] (++)).
    + intros [= <- <-] _. simpl. split; [done|].
      eexists _, []. by rewrite (right_id_L [] (++)).
    + by intros [= <- <-].
  - intros [= <- <-] _. simpl. split; [done|]. by eexists _, [].
Qed.

Lemma consistent_distinct s :
  consistent s →
  (∀ k k' c, get k (connections s) = Some c →
             get k' (connections s) = Some c → k = k')
  ∧ (∀ k k' d, get k (devices s) = Some d →
               get k' (devices s) = Some d → k = k').
Proof.
  intros (_ & _ & Hc & Hd). split.
  - intros k k' c H1 H2. apply Hc in H1 as [<- _]. by apply Hc in H2 as [<- _].
  - intros k k' d H1 H2. apply Hd in H1 as [<- _]. by apply Hd in H2 as [<- _].
Qed.

(** What the constructor leaves of the controller that [initRobot] made. *)
Lemma Robot_state validate mode opts s q :
  let w := Robot validate mode opts (MkWorld s q) in
  fst w = Normal tt →
  consistent (st (snd w))
  ∧ running (st (snd w)) = false
  ∧ name (st (snd w)) =
      (if truthy (opt "name" opts) then to_str (opt "name" opts)
       else "Robot " +:+ pretty (robot_id s))
  ∧ robot_id (st (snd w)) =
      (if truthy (opt "name" opts) then robot_id s else S (robot_id s))
  ∧ invocations (trace (st (snd w))) = invocations (trace s)
  ∧ pending (snd w) =
      q ++ (if String.eqb (fetch mode "manual") "auto"
            then [MkTask (fun s => start VUndef (MkWorld s []))] else []).
Proof.
  intros w Hok.
  destruct (Robot_result validate mode opts s q Hok)
    as (s1 & s2 & E1 & E2 & (cmds & t & Est & Ht) & Hq).
  destruct (initRobot_state opts (new_object s) q)
    as (s1' & E1' & Hcons & Hrun & Hname & Hid & _ & _ & _ & _ & _ & _ & _ & Hinv).
  rewrite E1 in E1'. injection E1' as <-.
  destruct (merge_options_keep opts (entries opts) s1 q)
    as (s2' & E2' & HC & HR & _).
  rewrite E2 in E2'. injection E2' as <-.
  destruct HC as (Hn2 & Hr2 & Hid2 & _ & _ & _ & Hinv2).
  fold w in Est, Hq. rewrite Est. simpl. split_and!.
  - apply (same_registry_consistent s1); [|done].
    destruct HR as (? & ? & ? & ? & ? & ?). by repeat split.
  - congruence.
  - by rewrite Hn2, Hname.
  - by rewrite Hid2, Hid.
  - by rewrite invocations_app, Ht, (right_id_L [] (++)), Hinv2, Hinv.
  - done.
Qed.

(** X1.  In every robot that the constructor returns, the names of the
    connections are pairwise different, and so are the names of the
    devices; each name leads to a handle that carries it as its own
    name; two names never share a handle. *)
Theorem X1_constructed_robot_consistent (validate : Opts → option string)
    (mode : option string) (opts : Opts) (s : State) (q : list Task) :
  let w := Robot validate mode opts (MkWorld s q) in
  fst w = Normal tt →
  let s' := st (snd w) in
  consistent s'
  ∧ (∀ k k' c, get k (connections s') = Some c →
               get k' (connections s') = Some c → k = k')
  ∧ (∀ k k' d, get k (devices s') = Some d →
               get k' (devices s') = Some d → k = k').
Proof.
  intros w Hok s'.
  destruct (Robot_state validate mode opts s q Hok) as (Hcons & _).
  split; [done|]. by apply consistent_distinct.
Qed.

Lemma X1_constructed_robot_consistent_witness :
  fst (Robot accepts None ultron_opts (MkWorld fresh_program [])) = Normal tt
  ∧ consistent ultron.
Proof.
  assert (fst (Robot accepts None ultron_opts (MkWorld fresh_program []))
          = Normal tt) as Hok by (vm_compute; reflexivity).
  split; [exact Hok|].
  destruct (X1_constructed_robot_consistent accepts None ultron_opts
              fresh_program [] Hok) as (H & _).
  exact H.
Defined.

(** X4.  Robots constructed without a name are numbered: such a robot is
    called [Robot n] for the current robot number [n], and takes that
    number; a robot given a name takes none.  Two robots constructed
    without a name, one after the other, have different names. *)
Theorem X4_unnamed_robots_numbered (validate : Opts → option string)
    (mode : option string) (opts1 opts2 : Opts) (s : State) (q : list Task)
    (w1 w2 : World) :
  Robot validate mode opts1 (MkWorld s q) = (Normal tt, w1) →
  Robot validate mode opts2 w1 = (Normal tt, w2) →
  truthy (opt "name" opts2) = false →
  name (st w2) = "Robot " +:+ pretty (robot_id (st w1))
  ∧ (truthy (opt "name" opts1) = true → robot_id (st w1) = robot_id s)
  ∧ (truthy (opt "name" opts1) = false →
     name (st w1) = "Robot " +:+ pretty (robot_id s)
     ∧ robot_id (st w1) = S (robot_id s)
     ∧ name (st w1) ≠ name (st w2)).
Proof.
  intros E1 E2 Hname2.
  pose proof (Robot_state validate mode opts1 s q) as H1.
  cbv zeta in H1. rewrite E1 in H1.
  destruct (H1 eq_refl) as (_ & _ & Hn1 & Hid1 & _). simpl in Hn1, Hid1.
  pose proof (Robot_state validate mode opts2 (st w1) (pending w1)) as H2.
  cbv zeta in H2. rewrite world_eta, E2 in H2.
  destruct (H2 eq_refl) as (_ & _ & Hn2 & _). simpl in Hn2.
  rewrite Hname2 in Hn2. split; [done|].
  destruct (truthy (opt "name" opts1)); split; try done.
  intros _. split_and!; [done|done|].
  rewrite Hn1, Hn2, Hid1. intros Heq.
  apply String.app_inj in Heq. apply pretty_nat_inj in Heq. lia.
Qed.

Lemma X4_unnamed_robots_numbered_witness :
  let w1 := snd (Robot accepts None [] (MkWorld fresh_program [])) in
  let w2 := snd (Robot accepts None [] w1) in
  name (st w1) = "Robot 1" ∧ name (st w2) = "Robot 2".
Proof.
  cbv zeta.
  set (w1 := snd (Robot accepts None [] (MkWorld fresh_program []))).
  set (w2 := snd (Robot accepts None [] w1)).
  assert (Robot accepts None [] (MkWorld fresh_program []) = (Normal tt, w1))
    as E1 by (vm_compute; reflexivity).
  assert (Robot accepts None [] w1 = (Normal tt, w2))
    as E2 by (vm_compute; reflexivity).
  destruct (X4_unnamed_robots_numbered accepts None [] [] fresh_program []
              w1 w2 E1 E2 eq_refl) as (Hn2 & _ & H1).
  destruct (H1 eq_refl) as (Hn1 & Hid & _).
  split.
  - rewrite Hn1. vm_compute. reflexivity.
  - rewrite Hn2, Hid. vm_compute. reflexivity.
Defined.

(** X5.  The constructor never starts the robot it makes: when it
    returns, the robot is not running and no method of a handle has been
    called.  In the automatic mode one call of [start], and nothing else,
    is queued for a later turn; in any other mode nothing is queued. *)
Theorem X5_constructor_defers_start (validate : Opts → option string)
    (mode : option string) (opts : Opts) (s : State) (q : list Task) :
  let w := Robot validate mode opts (MkWorld s q) in
  fst w = Normal tt →
  running (st (snd w)) = false
  ∧ invocations (trace (st (snd w))) = invocations (trace s)
  ∧ (mode = Some "auto" →
     pending (snd w) = q ++ [MkTask (fun s => start VUndef (MkWorld s []))])
  ∧ (mode ≠ Some "auto" → pending (snd w) = q).
Proof.
  intros w Hok.
  destruct (Robot_state validate mode opts s q Hok)
    as (_ & Hrun & _ & _ & Hinv & Hq).
  fold w in Hrun, Hinv, Hq. split_and!; [done|done| |].
  - intros ->. by rewrite Hq.
  - intros Hmode. rewrite Hq.
    destruct (String.eqb_spec (fetch mode "manual") "auto") as [Heq|_];
      [|by rewrite (right_id_L [] (++))].
    destruct mode as [m|]; simpl in Heq; [by subst m|discriminate Heq].
Qed.

Lemma X5_constructor_defers_start_witness :
  let w := Robot accepts (Some "auto") ultron_opts (MkWorld fresh_program []) in
  fst w = Normal tt
  ∧ running (st (snd w)) = false
  ∧ length (pending (snd w)) = 1.
Proof.
  assert (fst (Robot accepts (Some "auto") ultron_opts
                 (MkWorld fresh_program [])) = Normal tt) as Hok
    by (vm_compute; reflexivity).
  destruct (X5_constructor_defers_start accepts (Some "auto") ultron_opts
              fresh_program [] Hok) as (Hrun & _ & Hq & _).
  cbv zeta. split; [exact Hok|]. split; [exact Hrun|].
  rewrite (Hq eq_refl). reflexivity.
Defined.

End Constructor.

Section Binding.
Import JsObject JsObjectFacts.
#[local] Arguments member : simpl never.
#[local] Arguments call : simpl never.
#[local] Arguments merge_option : simpl never.



Lemma elem_of_get {V} (k : string) (v : V) (l : Obj V) :
  NoDup (created l) → (k, v) ∈ l ↔ get k l = Some v.
Proof.
  intros Hnd. induction l as [|[k' v'] l IH]; simpl.
  - split; [by intros ?%elem_of_nil|done].
  - unfold created in Hnd. simpl in Hnd. apply NoDup_cons in Hnd as [Hk Hnd].
    rewrite elem_of_cons, (IH Hnd).
    destruct (String.eqb_spec k k') as [->|Hne].
    + split.
      * intros [[= ->]|Hget]; [done|].
        exfalso. apply Hk. apply get_Some_created. by eexists.
      * intros [= ->]. by left.
    + split; [intros [[= -> _]|]; done|auto].
Qed.

(** Enumeration does not change what a key leads to. *)
Lemma get_of_entries {V} (k : string) (o : Obj V) :
  NoDup (created o) → get k (entries o) = get k o.
Proof.
  intros Hnd.
  assert (NoDup (created (entries o))) as Hnd'.
  { change (created (entries o)) with (keys o). by apply NoDup_keys. }
  destruct (get k o) as [v|] eqn:E.
  - apply (elem_of_get _ _ _ Hnd'). by apply get_entries.
  - apply get_None. change (created (entries o)) with (keys o).
    rewrite elem_of_keys. by apply get_None.
Qed.

(** The properties assigned by name after the merge of the keys [l]. *)
Lemma merge_options_own opts l : ∀ s q,
  NoDup (created l) →
  ∃ s', forEach l (merge_option opts) (MkWorld s q) = (Normal tt, MkWorld s' q)
    ∧ ∀ k, get k (own s') =
           match get k l with
           | Some o => if is_undefined (member s k) then Some (as_value o)
                       else get k (own s)
           | None => get k (own s)
           end.
Proof.
  induction l as [|[k0 o0] l IH]; intros s q Hnd.
  - exists s. by split.
  - unfold created in Hnd. simpl in Hnd. apply NoDup_cons in Hnd as [Hk0 Hnd].
    assert (get k0 l = None) as Hk0' by by apply get_None.
    simpl forEach. unfold mbind at 1, M_bind at 1.
    unfold merge_option at 1. run_monad.
    assert (∀ s1, own s1 = set k0 (as_value o0) (own s) →
                  inherited s1 = inherited s → name s1 = name s →
                  running s1 = running s → work s1 = work s →
                  ∀ k, k ≠ k0 → member s1 k = member s k) as Hframe.
    { intros s1 Hown Hinh Hn Hr Hw k Hne. unfold member.
      rewrite Hown, get_set_ne, Hinh, Hn, Hr, Hw by done. done. }
    destruct (is_undefined (member s k0)) eqn:Hundef; simpl.
    + destruct (isFunction (as_value o0)); run_monad;
        [destruct (is_nullish (opt "commands" opts)); run_monad|].
      all: match goal with
           | |- ∃ s', forEach _ _ (MkWorld ?s1 ?q1) = _ ∧ _ =>
               destruct (IH s1 q1 Hnd) as (s' & E & Hget);
               exists s'; (split; [exact E|]); intros k; rewrite Hget;
               simpl; destruct (String.eqb_spec k k0) as [->|Hne];
               [by rewrite Hk0', Hundef, get_set_eq
               |rewrite (Hframe s1) by done;
                by rewrite get_set_ne by done]
           end.
    + destruct (IH s q Hnd) as (s' & E & Hget).
      exists s'. split; [done|]. intros k. rewrite Hget. simpl.
      destruct (String.eqb_spec k k0) as [->|Hne]; [|done].
      by rewrite Hk0', Hundef.
Qed.

(** X6.  The constructor makes every configuration key that the new
    robot has no member for a property of the robot, with the value the
    configuration gives; a key that the robot has a member for (a field,
    a method, an inherited name) is not assigned, so that no method or
    field is replaced by the configuration. *)
Theorem X6_options_become_members (validate : Opts → option string)
    (mode : option string) (opts : Opts) (s : State) (q : list Task) :
  NoDup (created opts) →
  let w := Robot validate mode opts (MkWorld s q) in
  fst w = Normal tt →
  let s' := st (snd w) in
  ∀ k, match get k opts with
       | Some o =>
           if consumed s k then get k (own s') = None
           else get k (own s') = Some (as_value o)
                ∧ member s' k = as_value o
       | None => get k (own s') = None
       end.
Proof.
  intros Hnd w Hok s' k. subst s'.
  destruct (Robot_result validate mode opts s q Hok)
    as (s1 & s2 & E1 & E2 & (cmds & t & Est & _) & _).
  destruct (initRobot_result opts s q)
    as (s1' & E1' & _ & Hown1 & Hinh1 & Hwork1).
  rewrite E1 in E1'. injection E1' as <-.
  assert (NoDup (created (entries opts))) as Hnd'.
  { change (created (entries opts)) with (keys opts). by apply NoDup_keys. }
  destruct (merge_options_own opts (entries opts) s1 q Hnd')
    as (s2' & E2' & Hget).
  rewrite E2 in E2'. injection E2' as <-.
  fold w in Est. rewrite Est.
  assert (own (set_commands cmds (set_trace (trace s2 ++ t) s2)) = own s2)
    as -> by done.
  assert (member (set_commands cmds (set_trace (trace s2 ++ t) s2)) k
          = member s2 k) as -> by done.
  pose proof (member_fresh s1 k Hown1 Hwork1) as Hu.
  assert (consumed s1 k = consumed s k) as Hc
    by (unfold consumed; by rewrite Hinh1).
  rewrite Hc in Hu.
  rewrite Hget, (get_of_entries k opts Hnd), Hown1.
  destruct (get k opts) as [o|] eqn:Ho; [|done].
  rewrite Hu. destruct (consumed s k); simpl; [done|].
  split; [done|]. unfold member.
  by rewrite Hget, (get_of_entries k opts Hnd), Ho, Hu.
Qed.

Lemma X6_options_become_members_witness :
  let s' := after (Robot accepts None fragile_opts) fresh_program in
  NoDup (created fragile_opts)
  ∧ member s' "error" = VFun (FnUser "onError")
  ∧ get "name" (own s') = None.
Proof.
  assert (NoDup (created fragile_opts)) as Hnd.
  { apply (bool_decide_unpack _). vm_compute. reflexivity. }
  assert (fst (Robot accepts None fragile_opts (MkWorld fresh_program []))
          = Normal tt) as Hok by (vm_compute; reflexivity).
  pose proof (X6_options_become_members accepts None fragile_opts
                fresh_program [] Hnd Hok "error") as He.
  pose proof (X6_options_become_members accepts None fragile_opts
                fresh_program [] Hnd Hok "name") as Hn.
  cbv zeta. split; [exact Hnd|]. split.
  - change (get "error" fragile_opts)
      with (Some (OV (VFun (FnUser "onError")))) in He.
    assert (consumed fresh_program "error" = false) as Hc
      by (vm_compute; reflexivity).
    rewrite Hc in He. exact (proj2 He).
  - change (get "name" fragile_opts) with (Some (OV (VStr "Fragile"))) in Hn.
    assert (consumed fresh_program "name" = true) as Hc
      by (vm_compute; reflexivity).
    rewrite Hc in Hn. exact Hn.
Defined.

End Binding.

(** ** Devices added and removed while the robot runs *)

Section Removal.
Import JsObject JsObjectFacts.
#[local] Arguments member : simpl never.
#[local] Arguments call : simpl never.

Lemma get_remove_ne {V} k k' (o : Obj V) :
  k ≠ k' → get k' (remove k o) = get k' o.
Proof.
  intros Hne. induction o as [|[k0 v0] o IH]; simpl; [done|].
  destruct (String.eqb_spec k k0) as [->|]; simpl.
  - destruct (String.eqb_spec k' k0); congruence.
  - by rewrite IH.
Qed.

Lemma get_remove_eq {V} k (o : Obj V) :
  NoDup (created o) → get k (remove k o) = None.
Proof.
  intros Hnd. induction o as [|[k0 v0] o IH]; simpl; [done|].
  unfold created in Hnd. simpl in Hnd. apply NoDup_cons in Hnd as [Hk Hnd].
  destruct (String.eqb_spec k k0) as [->|Hne]; simpl.
  - by apply get_None.
  - destruct (String.eqb_spec k k0); [done|]. by apply IH.
Qed.

Lemma truthy_not_handle_name k (o : Obj nat) mk :
  get k o = None → k ∉ object_prototype →
  truthy (read_handle mk k o) = false.
Proof. intros H1 H2. by rewrite read_handle_absent. Qed.



(** The state that [deleteDevice] leaves when the connection and the
    device call back at once. *)
Lemma deleteDevice_now s q k d c e1 e2 :
  get k (devices s) = Some d →
  d_connection (dev_heap s d) = VConn c →
  disconnect_impl (conn_heap s c) = CallsBack e1 →
  halt_impl (dev_heap s d) = CallsBack e2 →
  deleteDevice k (MkWorld s q) =
  (Normal "device removed",
   MkWorld
     (set_trace
        (trace s ++
         [ ECall "console.log" (VObject "console") [VObject "opts"];
           EDisconnect c;
           ECall "console.log" (VObject "console") [VStr "connection removed"];
           EHalt d;
           ECall "console.log" (VObject "console") [VStr "device removed"] ])
        (set_devices (remove (d_name (dev_heap s d)) (devices s))
           (set_connections
              (remove (c_name (conn_heap s c)) (connections s)) s))) q).
Proof.
  intros Hget Hconn Hdis Hhalt.
  unfold deleteDevice, console_log. run_monad.
  rewrite (read_handle_own VDev k d _ Hget). simpl. rewrite Hconn. simpl.
  run_monad. rewrite Hdis. simpl. run_monad. rewrite Hhalt. simpl.
  by rewrite <- !(assoc_L (++)).
Qed.







End Removal.

Section Creation.
Import JsObject JsObjectFacts.
#[local] Arguments member : simpl never.
#[local] Arguments call : simpl never.
#[local] Arguments settled : simpl never.

Lemma settled_notices t :
  Forall (fun e => is_notice e = true) t → settled t = Pending.
Proof.
  induction 1 as [|e t He _ IH]; [done|].
  unfold settled. fold settled. by destruct e.
Qed.

Lemma connection_after k conn s q :
  connection k conn (MkWorld s q)
  = (Normal tt, MkWorld (after (connection k conn) s) q).
Proof.
  unfold connection. run_monad.
  by destruct (truthy (read_handle VConn k (connections s))).
Qed.

Lemma device_after k dev s q :
  device k dev (MkWorld s q) = (Normal tt, MkWorld (after (device k dev) s) q).
Proof.
  unfold device. run_monad.
  destruct (truthy (read_handle VDev k (devices s))); run_monad;
    destruct (ds_connection dev) as [| | | |wanted| | | | | | |]; run_monad;
    try done;
    by destruct (is_nullish (read_handle VConn wanted (connections s))).
Qed.

Lemma connection_trace k conn s :
  ∃ t, trace (after (connection k conn) s) = trace s ++ t
       ∧ Forall (fun e => is_notice e = true) t.
Proof.
  destruct (connection_state k conn s []) as (t & E & _ & _ & Hn).
  exists t. unfold after. by rewrite E.
Qed.

Lemma device_trace k dev s :
  ∃ t, trace (after (device k dev) s) = trace s ++ t
       ∧ Forall (fun e => is_notice e = true) t.
Proof.
  destruct (device_state k dev s []) as (t & E & _ & _ & Hn).
  exists t. unfold after. by rewrite E.
Qed.

Lemma notices_invocations t :
  Forall (fun e => is_notice e = true) t → invocations t = [].
Proof.
  induction 1 as [|e t He _ IH]; [done|].
  unfold invocations in *. simpl. by destruct e.
Qed.

Lemma bind_normal {A B} (m : M A) (f : A → M B) w a w' :
  m w = (Normal a, w') → (m ≫= f) w = f a w'.
Proof. unfold mbind, M_bind. by intros ->. Qed.

Lemma bind_thrown {A B} (m : M A) (f : A → M B) w e w' :
  m w = (Thrown e, w') → (m ≫= f) w = (Thrown e, w').
Proof. unfold mbind, M_bind. by intros ->. Qed.

(** What [createNewDevice] does: the two registrations, and a promise
    that is rejected. *)
Lemma createNewDevice_state opts s q :
  let conn :=
    mkConnSpec VUndef (nd_port opts) (nd_connect opts) (nd_disconnect opts)
      None in
  let dev :=
    mkDevSpec VUndef (VStr (nd_name opts)) (nd_start opts) (nd_halt opts) in
  let s0 :=
    set_trace
      (trace s ++ [ECall "console.log" (VObject "console") [VObject "opts"]])
      s in
  let s1 := after (connection (nd_name opts) conn) s0 in
  let s2 := after (device (nd_name opts) dev) s1 in
  createNewDevice opts (MkWorld s q) =
  (Normal
     (Rejected
        (VErr "TypeError: Cannot read property 'connections' of undefined")),
   MkWorld s2 q).
Proof.
  cbv zeta. unfold createNewDevice.
  erewrite bind_normal by reflexivity. simpl st. simpl pending.
  set (s0 := set_trace _ s).
  set (conn := mkConnSpec _ _ _ _ _). set (dev := mkDevSpec _ _ _ _).
  unfold new_promise.
  erewrite bind_normal by apply connection_after.
  erewrite bind_normal by reflexivity.
  erewrite bind_normal by apply device_after.
  erewrite bind_thrown by reflexivity.
  simpl st. subst s0. set (s0 := set_trace (trace s ++ [_]) s).
  destruct (connection_trace (nd_name opts) conn s0) as (t1 & Ht1 & Hn1).
  destruct (device_trace (nd_name opts) dev
              (after (connection (nd_name opts) conn) s0))
    as (t2 & Ht2 & Hn2).
  rewrite Ht2, Ht1, <- (assoc_L (++)), drop_app_length.
  by rewrite (settled_notices (t1 ++ t2)) by by apply Forall_app.
Qed.

Lemma connection_after_state k conn s :
  let k' := if truthy (read_handle VConn k (connections s))
            then makeUnique k (keys (connections s)) else k in
  ∃ t,
    after (connection k conn) s =
    set_connections (set k' (next_conn s) (connections s))
      (set_conn_heap
         (upd (next_conn s) (initializer_adaptor k' conn) (conn_heap s))
         (S (next_conn s))
         (set_trace (trace s ++ t) s))
    ∧ Forall (fun e => is_notice e = true) t
    ∧ sigints t = 0.
Proof.
  destruct (connection_state k conn s []) as (t & E & _ & Hsig & Hn).
  exists t. unfold after. by rewrite E.
Qed.

Lemma device_after_state k wanted dev s :
  ds_connection dev = VStr wanted →
  let k' := if truthy (read_handle VDev k (devices s))
            then makeUnique k (keys (devices s)) else k in
  ∃ t,
    after (device k dev) s =
    set_devices (set k' (next_dev s) (devices s))
      (set_dev_heap
         (upd (next_dev s)
            (initializer_driver k' (read_handle VConn wanted (connections s))
               dev)
            (dev_heap s))
         (S (next_dev s))
         (set_trace (trace s ++ t) s))
    ∧ Forall (fun e => is_notice e = true) t
    ∧ sigints t =
        if is_nullish (read_handle VConn wanted (connections s)) then 1 else 0.
Proof.
  intros Hwanted.
  destruct (device_state k dev s []) as (t & E & _ & Hsig & Hn).
  rewrite Hwanted in E, Hsig.
  exists t. unfold after. by rewrite E.
Qed.




End Creation.

(** ** What a call leaves alone *)

Section Frames.
Import JsObject JsObjectFacts.
#[local] Arguments member : simpl never.
#[local] Arguments call : simpl never.

Context (R : State → State → Prop).
Context (R_refl : ∀ s, R s s).
Context (R_trans : ∀ s1 s2 s3, R s1 s2 → R s2 s3 → R s1 s3).

Lemma keeps_ret {A} (a : A) : keeps R (mret a).
Proof using R_refl. intros w. apply R_refl. Qed.

Lemma keeps_throw {A} message : keeps R (throw message : M A).
Proof using R_refl. intros w. apply R_refl. Qed.

Lemma keeps_get_state : keeps R get_state.
Proof using R_refl. intros w. apply R_refl. Qed.

Lemma keeps_bind {A B} (m : M A) (f : A → M B) :
  keeps R m → (∀ a, keeps R (f a)) → keeps R (m ≫= f).
Proof using R_trans.
  intros Hm Hf w. unfold mbind, M_bind.
  specialize (Hm w). destruct (m w) as [[a|e] w']; simpl in *; [|done].
  eapply R_trans; [exact Hm|apply Hf].
Qed.

Lemma keeps_modify (f : State → State) :
  (∀ s, R s (f s)) → keeps R (modify f).
Proof. intros Hf w. apply Hf. Qed.

Lemma keeps_defer (m : M unit) : keeps R (defer m).
Proof using R_refl. intros w. apply R_refl. Qed.

Lemma keeps_try_catch (m : M unit) (h : string → M unit) :
  keeps R m → (∀ e, keeps R (h e)) → keeps R (try_catch m h).
Proof using R_trans.
  intros Hm Hh w. unfold try_catch.
  specialize (Hm w). destruct (m w) as [[a|e] w']; simpl in *; [done|].
  eapply R_trans; [exact Hm|apply Hh].
Qed.

Lemma keeps_forEach {A} (l : list A) (f : A → M unit) :
  (∀ x, x ∈ l → keeps R (f x)) → keeps R (forEach l f).
Proof using R_refl R_trans.
  induction l as [|x l IH]; intros Hf; simpl.
  - apply keeps_ret.
  - apply keeps_bind; [apply Hf; left|].
    intros _. apply IH. intros y Hy. apply Hf. by right.
Qed.

Lemma keeps_invoke (b : Behaviour) (cb : Cb) :
  (∀ e r, keeps R (cb e r)) → keeps R (invoke b cb).
Proof using R_refl.
  intros Hcb. destruct b; simpl; [apply Hcb|apply keeps_defer|
    apply keeps_throw|apply keeps_ret].
Qed.

(** Below, [R] does not look at the trace, at the joins, or at
    [running]. *)
Context (R_trace : ∀ s t, R s (set_trace t s)).
Context (R_joins : ∀ s js, R s (set_joins js s)).
Context (R_running : ∀ s b, R s (set_running b s)).

Lemma keeps_effect e : keeps R (effect e).
Proof using R_trace. apply keeps_modify. intros s. apply R_trace. Qed.

Lemma keeps_log str : keeps R (log str).
Proof using R_trace R_trans R_refl.
  unfold log. apply keeps_bind; [apply keeps_get_state|].
  intros s. apply keeps_effect.
Qed.

Lemma keeps_call f this args : keeps R (call f this args).
Proof using R_trace R_trans R_refl.
  unfold call. destruct f as [| | | | | | | |[]| | |];
    try apply keeps_throw; try apply keeps_effect; apply keeps_log.
Qed.

Lemma keeps_callback_of f e r : keeps R (callback_of f e r).
Proof using R_trace R_trans R_refl.
  unfold callback_of. destruct (truthy f); [apply keeps_call|apply keeps_ret].
Qed.

Lemma keeps_join_callback j (finish : Cb) e r :
  (∀ e r, keeps R (finish e r)) → keeps R (join_callback j finish e r).
Proof using R_joins R_trans R_refl.
  intros Hfinish. unfold join_callback.
  apply keeps_bind; [apply keeps_get_state|]. intros s.
  destruct (joins s !! j) as [c|]; [|apply keeps_ret].
  apply keeps_bind.
  - apply keeps_modify. intros s'. apply R_joins.
  - intros _. destruct (Nat.eqb _ _); [apply Hfinish|apply keeps_ret].
Qed.

Lemma keeps_parallel (fs : list (Cb → M unit)) (finish : Cb) :
  (∀ fn cb, fn ∈ fs → (∀ e r, keeps R (cb e r)) → keeps R (fn cb)) →
  (∀ e r, keeps R (finish e r)) → keeps R (parallel fs finish).
Proof using R_joins R_trans R_refl.
  intros Hfs Hfinish. unfold parallel.
  apply keeps_bind; [apply keeps_get_state|]. intros s.
  apply keeps_bind; [apply keeps_modify; intros s'; apply R_joins|].
  intros _. destruct fs as [|fn fs]; [apply Hfinish|].
  apply keeps_forEach. intros fn' Hfn'. apply Hfs; [done|].
  intros e r. by apply keeps_join_callback.
Qed.

Lemma keeps_unit_of u (cb : Cb) :
  (∀ e r, keeps R (cb e r)) → keeps R (unit_of u cb).
Proof using R_trace R_trans R_refl.
  intros Hcb. unfold unit_of, wrap.
  apply keeps_bind; [apply keeps_effect|]. intros _.
  apply keeps_invoke. intros e r. apply Hcb.
Qed.

Lemma keeps_halt (callback : Cb) :
  (∀ e r, keeps R (callback e r)) → keeps R (halt callback).
Proof using R_trace R_joins R_running R_trans R_refl.
  intros Hcb. unfold halt.
  apply keeps_bind; [apply keeps_get_state|]. intros s.
  destruct (negb (running s)); [apply Hcb|].
  apply keeps_bind; [|intros _; apply keeps_modify; intros s'; apply R_running].
  apply keeps_try_catch.
  - rewrite halt_units_eq. apply keeps_parallel.
    + intros fn cb (u & -> & _)%list_elem_of_fmap Hcb'.
      by apply keeps_unit_of.
    + intros e r. apply keeps_parallel; [|done].
      intros fn cb (u & -> & _)%list_elem_of_fmap Hcb'.
      by apply keeps_unit_of.
  - intros e. apply keeps_bind; [apply keeps_log|].
    intros _. apply keeps_log.
Qed.

End Frames.

Section HaltFacts.
Import JsObject JsObjectFacts.


End HaltFacts.

(** ** The phases of [start] *)

Section Phases.
Import JsObject JsObjectFacts.
#[local] Arguments Nat.eqb : simpl never.
#[local] Arguments member : simpl never.
#[local] Arguments call : simpl never.

Lemma bind_modify_id {A} (m : M A) (w : World) :
  (m ≫= fun a => modify (fun s => s);; mret a) w = m w.
Proof.
  run_monad. destruct (m w) as [[a|e] [s q]]; done.
Qed.

Lemma then_modify_id (m : M unit) (w : World) :
  (m;; modify (fun s => s)) w = m w.
Proof.
  run_monad. destruct (m w) as [[[]|e] [s q]]; done.
Qed.

(** The callback of a join, called without an error, on a join that has
    recorded none. *)
Lemma join_callback_ok e r finish s q js T k acc :
  truthy e = false →
  joins s = js ++ [mkJoin T k VNull acc] →
  join_callback (length js) finish e r (MkWorld s q) =
  let s' := set_joins (js ++ [mkJoin T (S k) VNull (acc ++ [r])]) s in
  if Nat.eqb (S k) T
  then finish VNull (VList (acc ++ [r])) (MkWorld s' q)
  else (Normal tt, MkWorld s' q).
Proof.
  intros He Hj. unfold join_callback. run_monad.
  rewrite Hj, list_lookup_middle by done. simpl. rewrite He.
  rewrite Hj, insert_last. simpl.
  by destruct (Nat.eqb (S k) T).
Qed.

Lemma set_joins_twice js js' s :
  set_joins js (set_joins js' s) = set_joins js s.
Proof. done. Qed.

Context (P : Phase) (L : PhaseLaws P).

Lemma visit_joins js c s :
  visit P c (set_joins js s) = set_joins js (visit P c s).
Proof using L.
  unfold visit. rewrite (law_flag_joins P L).
  destruct (ph_flag P s c); [done|].
  by rewrite (law_pre_joins P L), (law_mark_joins P L).
Qed.

Lemma sweep_joins js cs : ∀ s,
  sweep P cs (set_joins js s)
  = (set_joins js (fst (sweep P cs s)), snd (sweep P cs s)).
Proof using L.
  induction cs as [|c cs IH]; intros s; [done|].
  destruct cs as [|c2 rest].
  - simpl. rewrite (law_flag_joins P L).
    destruct (ph_flag P s c); [done|]. simpl.
    by rewrite (law_pre_joins P L).
  - change (sweep P (c :: c2 :: rest) ?x) with (sweep P (c2 :: rest) (visit P c x)).
    by rewrite visit_joins, IH.
Qed.

Lemma immediate_visit c c' s :
  c ≠ c' → immediate P (visit P c s) c' ↔ immediate P s c'.
Proof using L.
  intros Hne. unfold immediate, visit.
  destruct (ph_flag P s c); [done|].
  by rewrite (law_flag_mark_other P L), (law_flag_pre P L),
    (law_impl_mark P L), (law_impl_pre P L) by done.
Qed.

Lemma immediate_joins js c s :
  immediate P (set_joins js s) c ↔ immediate P s c.
Proof using L.
  unfold immediate. by rewrite (law_flag_joins P L), (law_impl_joins P L).
Qed.

(** One unit that calls back at once, on a join that it does not
    complete. *)
Lemma unit_step c finish s q js T k acc :
  immediate P s c →
  joins s = js ++ [mkJoin T k VNull acc] → S k ≠ T →
  ph_run P c (join_callback (length js) finish) (MkWorld s q) =
  (Normal tt,
   MkWorld
     (set_joins (js ++ [mkJoin T (S k) VNull (acc ++ [VUndef])]) (visit P c s))
     q).
Proof using L.
  intros Himm Hj HT. rewrite (law_run P L). unfold visit.
  destruct (ph_flag P s c) eqn:Hflag.
  - rewrite (join_callback_ok _ _ _ _ _ js T k acc) by done. simpl.
    by rewrite (proj2 (Nat.eqb_neq _ _) HT).
  - destruct Himm as [?|(e & He & Hfalsy)]; [congruence|].
    rewrite He. simpl. unfold mbind, M_bind.
    rewrite (join_callback_ok _ _ _ _ _ js T k acc);
      [|done|by rewrite (law_joins_pre P L)].
    simpl. rewrite (proj2 (Nat.eqb_neq _ _) HT).
    unfold modify. simpl. by rewrite (law_mark_joins P L).
Qed.

(** The last unit: its callback completes the join. *)
Lemma unit_last c finish s q js T k acc :
  immediate P s c →
  joins s = js ++ [mkJoin T k VNull acc] → S k = T →
  ph_run P c (join_callback (length js) finish) (MkWorld s q) =
  (finish VNull (VList (acc ++ [VUndef]));; modify (snd (sweep P [c] s)))
    (MkWorld
       (set_joins (js ++ [mkJoin T T VNull (acc ++ [VUndef])])
          (fst (sweep P [c] s))) q).
Proof using L.
  intros Himm Hj HT. rewrite (law_run P L). simpl.
  destruct (ph_flag P s c) eqn:Hflag; simpl.
  - rewrite (join_callback_ok _ _ _ _ _ js T k acc) by done. simpl.
    rewrite HT, Nat.eqb_refl. by rewrite then_modify_id.
  - destruct Himm as [?|(e & He & Hfalsy)]; [congruence|].
    rewrite He. simpl. unfold mbind at 2, M_bind at 2.
    unfold mbind at 1, M_bind at 1.
    rewrite (join_callback_ok _ _ _ _ _ js T k acc);
      [|done|by rewrite (law_joins_pre P L)].
    simpl. by rewrite HT, Nat.eqb_refl.
Qed.

(** All units call back at once, without an error: the join completes
    within the call of the last one. *)
Lemma forEach_sweep cs : ∀ s q js T k acc (finish : Cb),
  cs ≠ [] → NoDup cs → (∀ c, c ∈ cs → immediate P s c) →
  joins s = js ++ [mkJoin T k VNull acc] → k + length cs = T →
  forEach (List.map (ph_run P) cs)
    (fun fn => fn (join_callback (length js) finish)) (MkWorld s q)
  = (finish VNull (VList (acc ++ replicate (length cs) VUndef));;
     modify (snd (sweep P cs s)))
      (MkWorld
         (set_joins
            (js ++ [mkJoin T T VNull (acc ++ replicate (length cs) VUndef)])
            (fst (sweep P cs s))) q).
Proof using L.
  induction cs as [|c cs IH]; intros s q js T k acc finish Hne Hnd Himm Hj HT;
    [done|].
  apply NoDup_cons in Hnd as [Hc Hnd].
  destruct cs as [|c2 rest].
  - simpl forEach. rewrite bind_ret_unit. simpl length. simpl replicate.
    apply (unit_last c finish s q js T k acc);
      [apply Himm; left|done|simpl in HT; lia].
  - change (List.map (ph_run P) (c :: c2 :: rest))
      with (ph_run P c :: List.map (ph_run P) (c2 :: rest)).
    simpl forEach. unfold mbind at 1, M_bind at 1.
    rewrite (unit_step c finish s q js T k acc);
      [|apply Himm; left|done|simpl in HT; lia].
    change (ph_run P c2 (join_callback (length js) finish);;
            forEach (List.map (ph_run P) rest)
              (fun fn => fn (join_callback (length js) finish)))
      with (forEach (List.map (ph_run P) (c2 :: rest))
              (fun fn => fn (join_callback (length js) finish))).
    rewrite (IH _ q js T (S k) (acc ++ [VUndef]) finish);
      [|done|done| |done|simpl in *; lia].
    + rewrite sweep_joins. simpl fst. simpl snd. rewrite set_joins_twice.
      change (sweep P (c :: c2 :: rest) s)
        with (sweep P (c2 :: rest) (visit P c s)).
      by rewrite <- (assoc_L (++)).
    + intros c' Hc'. apply immediate_joins, immediate_visit.
      * intros ->. by apply Hc.
      * apply Himm. by right.
Qed.

End Phases.

Section PhaseInstances.
Import JsObject JsObjectFacts.
#[local] Arguments Nat.eqb : simpl never.
#[local] Arguments member : simpl never.
#[local] Arguments call : simpl never.

Lemma actions_app t1 t2 : actions (t1 ++ t2) = actions t1 ++ actions t2.
Proof. unfold actions. by rewrite List.filter_app. Qed.

Lemma upd_eq {A} i (x : A) h : upd i x h i = x.
Proof. unfold upd. by rewrite Nat.eqb_refl. Qed.

Lemma upd_ne {A} i j (x : A) h : i ≠ j → upd i x h j = h j.
Proof. intros Hne. unfold upd. by destruct (Nat.eqb_spec j i); [congruence|]. Qed.

Lemma connection_laws : PhaseLaws connection_phase.
Proof.
  split; simpl.
  - intros c cb s q. unfold startConnection, connecting. run_monad.
    destruct (connected (conn_heap s c)); [done|].
    unfold mbind, M_bind.
    by destruct (invoke (connect_impl (conn_heap s c)) cb _) as [[[]|e] w'].
  - done.
  - done.
  - done.
  - done.
  - done.
  - done.
  - done.
  - done.
  - intros c s. unfold set_connected. simpl. by rewrite upd_eq.
  - intros c c' s Hne. unfold set_connected. simpl. by rewrite upd_ne.
  - intros c c' s. unfold set_connected. simpl. unfold upd.
    by destruct (Nat.eqb c' c) eqn:E; [apply Nat.eqb_eq in E as ->|].
  - intros c s. unfold connecting. run_monad.
    rewrite <- (assoc_L (++)), actions_app. done.
  - done.
  - by repeat split.
  - intros s1 s2 s3
      (-> & -> & -> & -> & -> & -> & -> & -> & -> & -> & -> & -> & ->)
      (-> & -> & -> & -> & -> & -> & -> & -> & -> & -> & -> & -> & ->).
    by repeat split.
  - by repeat split.
  - by repeat split.
Qed.

Lemma device_laws : PhaseLaws device_phase.
Proof.
  split; simpl.
  - intros d cb s q. unfold startDevice, starting. run_monad.
    destruct (started (dev_heap s d)); [done|].
    unfold mbind, M_bind.
    by destruct (invoke (start_impl (dev_heap s d)) cb _) as [[[]|e] w'].
  - done.
  - done.
  - done.
  - done.
  - done.
  - done.
  - done.
  - done.
  - intros d s. unfold set_started. simpl. by rewrite upd_eq.
  - intros d d' s Hne. unfold set_started. simpl. by rewrite upd_ne.
  - intros d d' s. unfold set_started. simpl. unfold upd.
    by destruct (Nat.eqb d' d) eqn:E; [apply Nat.eqb_eq in E as ->|].
  - intros d s. unfold starting. run_monad.
    rewrite <- (assoc_L (++)), actions_app. done.
  - done.
  - by repeat split.
  - intros s1 s2 s3
      (-> & -> & -> & -> & -> & -> & -> & -> & -> & -> & -> & -> & ->)
      (-> & -> & -> & -> & -> & -> & -> & -> & -> & -> & -> & -> & ->).
    by repeat split.
  - by repeat split.
  - by repeat split.
Qed.

End PhaseInstances.

Section SweepFacts.
Import JsObject JsObjectFacts.
#[local] Arguments Nat.eqb : simpl never.
#[local] Arguments member : simpl never.
#[local] Arguments call : simpl never.

Context (P : Phase) (L : PhaseLaws P).

Lemma sweep_cons c c2 rest s :
  sweep P (c :: c2 :: rest) s = sweep P (c2 :: rest) (visit P c s).
Proof. done. Qed.

Lemma visit_frame c s : ph_frame P s (visit P c s).
Proof using L.
  unfold visit. destruct (ph_flag P s c); [apply (law_frame_refl P L)|].
  eapply (law_frame_trans P L);
    [apply (law_frame_pre P L)|apply (law_frame_mark P L)].
Qed.

Lemma sweep_frame cs : ∀ s,
  ph_frame P s (fst (sweep P cs s))
  ∧ ∀ s', ph_frame P s' (snd (sweep P cs s) s').
Proof using L.
  induction cs as [|c cs IH]; intros s.
  - split; [apply (law_frame_refl P L)|intros s'; apply (law_frame_refl P L)].
  - destruct cs as [|c2 rest].
    + simpl. destruct (ph_flag P s c); simpl; split;
        try apply (law_frame_refl P L); try (intros s'; apply (law_frame_refl P L)).
      * apply (law_frame_pre P L).
      * intros s'. apply (law_frame_mark P L).
    + rewrite sweep_cons. destruct (IH (visit P c s)) as [H1 H2].
      split; [|done].
      eapply (law_frame_trans P L); [apply visit_frame|done].
Qed.

Lemma sweep_joins_kept cs : ∀ s,
  joins (fst (sweep P cs s)) = joins s
  ∧ ∀ s', joins (snd (sweep P cs s) s') = joins s'.
Proof using L.
  induction cs as [|c cs IH]; intros s; [done|].
  destruct cs as [|c2 rest].
  - simpl. destruct (ph_flag P s c); simpl; split; try done.
    + apply (law_joins_pre P L).
    + intros s'. apply (law_joins_mark P L).
  - rewrite sweep_cons. destruct (IH (visit P c s)) as [H1 H2].
    split; [|done]. rewrite H1. unfold visit.
    destruct (ph_flag P s c); [done|].
    by rewrite (law_joins_mark P L), (law_joins_pre P L).
Qed.

Lemma sweep_trace_after cs : ∀ s s',
  trace (snd (sweep P cs s) s') = trace s'.
Proof using L.
  induction cs as [|c cs IH]; intros s s'; [done|].
  destruct cs as [|c2 rest].
  - simpl. destruct (ph_flag P s c); simpl; [done|]. apply (law_trace_mark P L).
  - rewrite sweep_cons. apply IH.
Qed.

Lemma flag_visit_other c c' s :
  c ≠ c' → ph_flag P (visit P c s) c' = ph_flag P s c'.
Proof using L.
  intros Hne. unfold visit. destruct (ph_flag P s c); [done|].
  by rewrite (law_flag_mark_other P L), (law_flag_pre P L).
Qed.

Lemma flag_visit c s : ph_flag P (visit P c s) c = true.
Proof using L.
  unfold visit. destruct (ph_flag P s c) eqn:E; [done|].
  apply (law_flag_mark P L).
Qed.

Lemma flag_visit_kept c c' s :
  ph_flag P s c' = true → ph_flag P (visit P c s) c' = true.
Proof using L.
  intros H. destruct (decide (c = c')) as [->|Hne]; [apply flag_visit|].
  by rewrite flag_visit_other.
Qed.

Lemma actions_visit c s :
  actions (trace (visit P c s))
  = actions (trace s) ++ (if ph_flag P s c then [] else [ph_event P c]).
Proof using L.
  unfold visit. destruct (ph_flag P s c); [by rewrite (right_id_L [] (++))|].
  by rewrite (law_trace_mark P L), (law_actions_pre P L).
Qed.

(** The calls that a sweep makes: one for each unit that was not marked,
    in order. *)
Lemma sweep_actions cs : ∀ s,
  NoDup cs →
  actions (trace (fst (sweep P cs s)))
  = actions (trace s)
    ++ List.map (ph_event P) (List.filter (fun c => negb (ph_flag P s c)) cs).
Proof using L.
  induction cs as [|c cs IH]; intros s Hnd.
  - simpl. by rewrite (right_id_L [] (++)).
  - apply NoDup_cons in Hnd as [Hc Hnd]. destruct cs as [|c2 rest].
    + simpl. destruct (ph_flag P s c); simpl.
      * by rewrite (right_id_L [] (++)).
      * apply (law_actions_pre P L).
    + rewrite sweep_cons, (IH _ Hnd), actions_visit.
      rewrite <- (assoc_L (++)). f_equal.
      change (List.filter ?f (c :: ?l))
        with (if f c then c :: List.filter f l else List.filter f l).
      assert (List.filter (fun c0 => negb (ph_flag P (visit P c s) c0)) (c2 :: rest)
              = List.filter (fun c0 => negb (ph_flag P s c0)) (c2 :: rest)) as ->.
      { apply List.filter_ext_in. intros c' Hc'.
        rewrite flag_visit_other; [done|].
        intros ->. apply Hc. by apply list_elem_of_In. }
      by destruct (ph_flag P s c).
Qed.

Lemma sweep_flag_kept cs : ∀ s c,
  ph_flag P s c = true → ph_flag P (fst (sweep P cs s)) c = true.
Proof using L.
  induction cs as [|c0 cs IH]; intros s c Hc; [done|].
  destruct cs as [|c2 rest].
  - simpl. destruct (ph_flag P s c0); simpl; [done|].
    by rewrite (law_flag_pre P L).
  - rewrite sweep_cons. apply IH. by apply flag_visit_kept.
Qed.

Lemma sweep_after_kept cs : ∀ s s' c,
  ph_flag P s' c = true → ph_flag P (snd (sweep P cs s) s') c = true.
Proof using L.
  induction cs as [|c0 cs IH]; intros s s' c Hc; [done|].
  destruct cs as [|c2 rest].
  - simpl. destruct (ph_flag P s c0); simpl; [done|].
    destruct (decide (c0 = c)) as [->|Hne]; [apply (law_flag_mark P L)|].
    by rewrite (law_flag_mark_other P L).
  - rewrite sweep_cons. by apply IH.
Qed.

(** When the sweep is over, every unit is marked. *)
Lemma sweep_flags cs : ∀ s s',
  (∀ c, ph_flag P (fst (sweep P cs s)) c = true → ph_flag P s' c = true) →
  ∀ c, c ∈ cs → ph_flag P (snd (sweep P cs s) s') c = true.
Proof using L.
  induction cs as [|c0 cs IH]; intros s s' Hs' c Hc;
    [by apply elem_of_nil in Hc|].
  destruct cs as [|c2 rest].
  - apply list_elem_of_singleton in Hc as ->. simpl in *.
    destruct (ph_flag P s c0) eqn:E; simpl in *; [by apply Hs'|].
    apply (law_flag_mark P L).
  - rewrite sweep_cons in *. apply elem_of_cons in Hc as [->|Hc].
    + apply sweep_after_kept, Hs', sweep_flag_kept, flag_visit.
    + by apply IH.
Qed.

(** A join all of whose units call back at once, without an error. *)
Lemma parallel_sweep cs (finish : Cb) s q :
  NoDup cs → (∀ c, c ∈ cs → immediate P s c) →
  parallel (List.map (ph_run P) cs) finish (MkWorld s q) =
  (finish VNull (VList (replicate (length cs) VUndef));;
   modify (snd (sweep P cs s)))
    (MkWorld
       (set_joins
          (joins s ++ [mkJoin (length cs) (length cs) VNull
                         (replicate (length cs) VUndef)])
          (fst (sweep P cs s))) q).
Proof using L.
  intros Hnd Himm. unfold parallel.
  erewrite bind_normal by reflexivity.
  erewrite bind_normal by reflexivity.
  simpl st. simpl pending. rewrite length_map.
  destruct cs as [|c cs].
  - simpl. by rewrite then_modify_id.
  - change (List.map (ph_run P) (c :: cs))
      with (ph_run P c :: List.map (ph_run P) cs).
    cbv iota.
    change (ph_run P c :: List.map (ph_run P) cs)
      with (List.map (ph_run P) (c :: cs)).
    rewrite (forEach_sweep P L (c :: cs) _ q (joins s) (length (c :: cs)) 0 []);
      [|done|done| |done|done].
    + rewrite (sweep_joins P L). simpl fst. simpl snd.
      by rewrite set_joins_twice.
    + intros c' Hc'. by apply (immediate_joins P L), Himm.
Qed.

End SweepFacts.

Section StartImmediate.
Import JsObject JsObjectFacts.
#[local] Arguments Nat.eqb : simpl never.
#[local] Arguments member : simpl never.
#[local] Arguments call : simpl never.
#[local] Arguments sweep : simpl never.
#[local] Arguments JsObject.values : simpl never.
#[local] Arguments call_trace : simpl never.

Lemma start_done_ok callback results s q :
  start_done callback VNull results (MkWorld s q) =
  (Normal tt,
   MkWorld
     (set_trace
        (trace s ++ (if isFunction callback
                     then call_trace s callback VUndef [VNull; results]
                     else [])) s) q).
Proof.
  unfold start_done. simpl truthy. cbv iota.
  erewrite bind_normal by reflexivity.
  destruct (isFunction callback) eqn:Hfn.
  - by rewrite (call_function _ _ _ _ s).
  - run_monad. rewrite (right_id_L [] (++)). by destruct s.
Qed.

Lemma startWork_ok s q :
  isFunction (work s) = true →
  startWork (MkWorld s q) =
  (Normal tt,
   MkWorld
     (set_running true
        (set_trace
           (trace s
            ++ [ELog ("[" +:+ name s +:+ "] - " +:+ "Working.");
                EEmit "ready" VRobot]
            ++ call_trace s (work s) VRobot [VRobot]) s)) q).
Proof.
  intros Hwork. unfold startWork. run_monad.
  rewrite (call_function _ _ _ _ s) by done. simpl.
  by rewrite <- !(assoc_L (++)).
Qed.

Lemma startConnections_sweep cb s q :
  NoDup (values (connections s)) →
  (∀ c, c ∈ values (connections s) → immediate connection_phase s c) →
  let s1 :=
    set_trace
      (trace s ++ [ELog ("[" +:+ name s +:+ "] - " +:+ "Starting connections.")])
      s in
  let cs := values (connections s) in
  startConnections cb (MkWorld s q) =
  (cb VNull (VList (replicate (length cs) VUndef));;
   modify (snd (sweep connection_phase cs s1)))
    (MkWorld
       (set_joins
          (joins s ++ [mkJoin (length cs) (length cs) VNull
                         (replicate (length cs) VUndef)])
          (fst (sweep connection_phase cs s1))) q).
Proof.
  intros Hnd Himm. cbv zeta. unfold startConnections.
  erewrite bind_normal by reflexivity.
  erewrite bind_normal by reflexivity. simpl st.
  change (List.map (fun conn cb => startConnection conn cb) ?l)
    with (List.map (ph_run connection_phase) l).
  by rewrite (parallel_sweep connection_phase connection_laws).
Qed.

Lemma startDevices_sweep cb s q :
  NoDup (values (devices s)) →
  (∀ d, d ∈ values (devices s) → immediate device_phase s d) →
  let s1 :=
    set_trace
      (trace s ++ [ELog ("[" +:+ name s +:+ "] - " +:+ "Starting devices.")])
      s in
  let ds := values (devices s) in
  startDevices cb (MkWorld s q) =
  (cb VNull (VList (replicate (length ds) VUndef));;
   modify (snd (sweep device_phase ds s1)))
    (MkWorld
       (set_joins
          (joins s ++ [mkJoin (length ds) (length ds) VNull
                         (replicate (length ds) VUndef)])
          (fst (sweep device_phase ds s1))) q).
Proof.
  intros Hnd Himm. cbv zeta. unfold startDevices.
  erewrite bind_normal by reflexivity.
  erewrite bind_normal by reflexivity. simpl st.
  change (List.map (fun device cb => startDevice device cb) ?l)
    with (List.map (ph_run device_phase) l).
  by rewrite (parallel_sweep device_phase device_laws).
Qed.

(** The world in which [start] returns when every unit calls back at
    once. *)
Lemma start_immediate_world (s : State) (q : list Task) (callback : Value) :
  running s = false → workMode s = None → isFunction (work s) = true →
  NoDup (values (connections s)) → NoDup (values (devices s)) →
  (∀ c, c ∈ values (connections s) → immediate connection_phase s c) →
  (∀ d, d ∈ values (devices s) → immediate device_phase s d) →
  let cs := values (connections s) in
  let ds := values (devices s) in
  let results :=
    VList [VList (replicate (length cs) VUndef);
           VList (replicate (length ds) VUndef)] in
  let s1 :=
    set_trace
      (trace s ++ [ELog ("[" +:+ name s +:+ "] - " +:+ "Starting connections.")])
      s in
  let sC :=
    set_joins
      (joins s ++ [mkJoin (length cs) (length cs) VNull
                     (replicate (length cs) VUndef)])
      (fst (sweep connection_phase cs s1)) in
  let s2 :=
    set_trace
      (trace sC ++ [ELog ("[" +:+ name s +:+ "] - " +:+ "Starting devices.")])
      sC in
  let sD :=
    set_joins
      (joins sC ++ [mkJoin (length ds) (length ds) VNull
                      (replicate (length ds) VUndef)])
      (fst (sweep device_phase ds s2)) in
  let sE :=
    set_trace
      (trace sD ++ (if isFunction callback
                    then call_trace s callback VUndef [VNull; results]
                    else [])) sD in
  let sF :=
    snd (sweep connection_phase cs s1) (snd (sweep device_phase ds s2) sE) in
  start callback (MkWorld s q) =
  (Normal tt,
   MkWorld
     (set_running true
        (set_trace
           (trace sF
            ++ [ELog ("[" +:+ name s +:+ "] - " +:+ "Working.");
                EEmit "ready" VRobot]
            ++ call_trace s (work s) VRobot [VRobot]) sF)) q).
Proof.
  intros Hrun Hmode Hwork HndC HndD HC HD. cbv zeta.
  set (cs := values (connections s)). set (ds := values (devices s)).
  set (s1 := set_trace (trace s ++ [ELog ("[" +:+ name s +:+ "] - "
                                          +:+ "Starting connections.")]) s).
  destruct (sweep_frame connection_phase connection_laws cs s1) as [FC FC'].
  set (sC := set_joins
               (joins s ++ [mkJoin (length cs) (length cs) VNull
                              (replicate (length cs) VUndef)])
               (fst (sweep connection_phase cs s1))).
  assert (ph_frame connection_phase s sC) as FsC.
  { destruct FC as (? & ? & ? & ? & ? & ? & ? & ? & ? & ? & ? & ? & ?).
    subst sC s1. simpl in *. by repeat split. }
  destruct FsC as (HnC & HrC & HcC & HdC & HwC & _ & _ & _ & _ & HhC & _ & HmC & _).
  set (s2 := set_trace (trace sC ++ [ELog ("[" +:+ name s +:+ "] - "
                                           +:+ "Starting devices.")]) sC).
  destruct (sweep_frame device_phase device_laws ds s2) as [FD FD'].
  set (sD := set_joins
               (joins sC ++ [mkJoin (length ds) (length ds) VNull
                               (replicate (length ds) VUndef)])
               (fst (sweep device_phase ds s2))).
  assert (ph_frame device_phase sC sD) as FsD.
  { destruct FD as (? & ? & ? & ? & ? & ? & ? & ? & ? & ? & ? & ? & ?).
    subst sD s2. simpl in *. by repeat split. }
  destruct FsD as (HnD & HrD & _ & _ & HwD & _ & _ & _ & _ & _ & _ & HmD & _).
  set (results := VList [VList (replicate (length cs) VUndef);
                         VList (replicate (length ds) VUndef)]).
  set (sE := set_trace
               (trace sD ++ (if isFunction callback
                             then call_trace s callback VUndef [VNull; results]
                             else [])) sD).
  set (sF := snd (sweep connection_phase cs s1)
               (snd (sweep device_phase ds s2) sE)).
  assert (name sF = name s ∧ work sF = work s) as [HnF HwF].
  { subst sF.
    destruct (FC' (snd (sweep device_phase ds s2) sE))
      as (E1 & _ & _ & _ & E2 & _).
    destruct (FD' sE) as (E3 & _ & _ & _ & E4 & _).
    rewrite E1, E2, E3, E4.
    change (name sD = name s ∧ work sD = work s). split; congruence. }
  (* the connection phase *)
  unfold start. erewrite bind_normal by reflexivity.
  change (st (MkWorld s q)) with s.
  rewrite Hrun, Hmode. cbv iota. simpl fetch. simpl String.eqb. cbv iota.
  unfold series, series_from.
  assert (startDevices
            (fun err result =>
               if truthy err
               then start_done callback err (VList ([] ++ [VList (replicate (length cs) VUndef)]))
               else start_done callback VNull
                      (VList (([] ++ [VList (replicate (length cs) VUndef)])
                              ++ [result])))
            (MkWorld sC q)
          = (Normal tt, MkWorld (snd (sweep device_phase ds s2) sE) q)) as ED.
  { rewrite startDevices_sweep.
    - rewrite HdC. fold ds. rewrite HnC. fold s2. fold sD.
      simpl truthy. cbv iota.
      erewrite bind_normal.
      2:{ rewrite start_done_ok. reflexivity. }
      simpl app.
      assert (∀ t, call_trace sD callback VUndef t = call_trace s callback VUndef t)
        as ->.
      { intros t. unfold call_trace. by rewrite HnD, HnC. }
      done.
    - by rewrite HdC.
    - rewrite HdC. intros d Hd. specialize (HD d Hd).
      unfold immediate in *. simpl in *. by rewrite HhC. }
  erewrite bind_normal.
  2:{ rewrite startConnections_sweep by done. fold cs s1 sC.
      simpl truthy. cbv iota.
      erewrite bind_normal by exact ED. reflexivity. }
  cbv beta.
  match goal with
  | |- startWork _ = ?rhs => change (startWork (MkWorld sF q) = rhs)
  end.
  rewrite startWork_ok by (rewrite HwF; exact Hwork).
  rewrite HnF, HwF.
  assert (∀ t, call_trace sF (work s) VRobot t = call_trace s (work s) VRobot t)
    as ->.
  { intros t. unfold call_trace. by rewrite HnF. }
  done.
Qed.

(** What [start] does when every unit calls back at once. *)
Lemma start_immediate_facts (s : State) (q : list Task) (callback : Value) :
  running s = false → workMode s = None → isFunction (work s) = true →
  NoDup (values (connections s)) → NoDup (values (devices s)) →
  (∀ c, c ∈ values (connections s) →
        connected (conn_heap s c) = true
        ∨ ∃ err, connect_impl (conn_heap s c) = CallsBack err
                 ∧ truthy err = false) →
  (∀ d, d ∈ values (devices s) →
        started (dev_heap s d) = true
        ∨ ∃ err, start_impl (dev_heap s d) = CallsBack err
                 ∧ truthy err = false) →
  let w := start callback (MkWorld s q) in
  let s' := st (snd w) in
  let results :=
    VList [VList (replicate (length (values (connections s))) VUndef);
           VList (replicate (length (values (devices s))) VUndef)] in
  fst w = Normal tt ∧ pending (snd w) = q ∧ running s' = true
  ∧ actions (trace s') =
      actions (trace s)
      ++ List.map EConnect
           (List.filter (fun c => negb (connected (conn_heap s c)))
              (values (connections s)))
      ++ List.map EStart
           (List.filter (fun d => negb (started (dev_heap s d)))
              (values (devices s)))
      ++ (if isFunction callback
          then actions (call_trace s callback VUndef [VNull; results])
          else [])
      ++ [EEmit "ready" VRobot]
      ++ actions (call_trace s (work s) VRobot [VRobot])
  ∧ (∀ c, c ∈ values (connections s) → connected (conn_heap s' c) = true)
  ∧ (∀ d, d ∈ values (devices s) → started (dev_heap s' d) = true)
  ∧ connections s' = connections s ∧ devices s' = devices s.
Proof.
  intros Hrun Hmode Hwork HndC HndD HC HD. cbv zeta.
  rewrite (start_immediate_world s q callback) by done.
  set (cs := values (connections s)) in *. set (ds := values (devices s)) in *.
  set (s1 := set_trace (trace s ++ [ELog ("[" +:+ name s +:+ "] - "
                                          +:+ "Starting connections.")]) s).
  destruct (sweep_frame connection_phase connection_laws cs s1) as [FC FC'].
  set (sC := set_joins
               (joins s ++ [mkJoin (length cs) (length cs) VNull
                              (replicate (length cs) VUndef)])
               (fst (sweep connection_phase cs s1))).
  set (s2 := set_trace (trace sC ++ [ELog ("[" +:+ name s +:+ "] - "
                                           +:+ "Starting devices.")]) sC).
  destruct (sweep_frame device_phase device_laws ds s2) as [FD FD'].
  set (sD := set_joins
               (joins sC ++ [mkJoin (length ds) (length ds) VNull
                               (replicate (length ds) VUndef)])
               (fst (sweep device_phase ds s2))).
  set (results := VList [VList (replicate (length cs) VUndef);
                         VList (replicate (length ds) VUndef)]).
  set (sE := set_trace
               (trace sD ++ (if isFunction callback
                             then call_trace s callback VUndef [VNull; results]
                             else [])) sD).
  set (postD := snd (sweep device_phase ds s2)) in *.
  set (postC := snd (sweep connection_phase cs s1)) in *.
  set (sF := postC (postD sE)).
  (* what the frames give *)
  assert (dev_heap sC = dev_heap s ∧ devices sC = devices s
          ∧ connections sC = connections s) as (HhC & HdC & HcC).
  { destruct FC as (_ & _ & E1 & E2 & _ & _ & _ & _ & _ & E3 & _).
    subst sC. simpl. by rewrite E1, E2, E3. }
  assert (conn_heap sD = conn_heap sC ∧ devices sD = devices sC
          ∧ connections sD = connections sC) as (HhD & HdD & HcD).
  { destruct FD as (_ & _ & E1 & E2 & _ & _ & _ & _ & E3 & _).
    subst sD. simpl. by rewrite E1, E2, E3. }
  assert (conn_heap (postD sE) = conn_heap sD
          ∧ devices (postD sE) = devices sD
          ∧ connections (postD sE) = connections sD) as (HhE & HdE & HcE).
  { destruct (FD' sE) as (_ & _ & E1 & E2 & _ & _ & _ & _ & E3 & _).
    by rewrite E1, E2, E3. }
  assert (dev_heap sF = dev_heap (postD sE) ∧ devices sF = devices (postD sE)
          ∧ connections sF = connections (postD sE)) as (HhF & HdF & HcF).
  { destruct (FC' (postD sE)) as (_ & _ & E1 & E2 & _ & _ & _ & _ & _ & E3 & _).
    subst sF. by rewrite E1, E2, E3. }
  simpl fst. simpl snd.
  change (st (MkWorld ?x q)) with x. change (pending (MkWorld ?x q)) with q.
  split_and!; [done|done|done| | | | |].
  - assert (∀ l, List.filter (fun d => negb (ph_flag device_phase s2 d)) l
                 = List.filter (fun d => negb (started (dev_heap s d))) l)
      as HfD.
    { apply List.filter_ext. intros d.
      change (negb (started (dev_heap sC d)) = negb (started (dev_heap s d))).
      by rewrite HhC. }
    assert (∀ l, List.filter (fun c => negb (ph_flag connection_phase s1 c)) l
                 = List.filter (fun c => negb (connected (conn_heap s c))) l)
      as HfC.
    { apply List.filter_ext. intros c. done. }
    assert (actions (trace sC)
            = actions (trace s)
              ++ List.map EConnect
                   (List.filter (fun c => negb (connected (conn_heap s c))) cs))
      as HaC.
    { unfold sC. simpl trace.
      rewrite (sweep_actions _ connection_laws) by done.
      rewrite HfC. unfold s1. simpl trace. rewrite actions_app.
      change (actions [ELog _]) with (@nil Event).
      by rewrite (right_id_L [] (++)). }
    assert (actions (trace sD)
            = actions (trace sC)
              ++ List.map EStart
                   (List.filter (fun d => negb (started (dev_heap s d))) ds))
      as HaD.
    { unfold sD. simpl trace.
      rewrite (sweep_actions _ device_laws) by done.
      rewrite HfD. unfold s2. simpl trace. rewrite actions_app.
      change (actions [ELog _]) with (@nil Event).
      by rewrite (right_id_L [] (++)). }
    assert (trace sF = trace sE) as HtF.
    { unfold sF, postC, postD.
      by rewrite (sweep_trace_after _ connection_laws),
        (sweep_trace_after _ device_laws). }
    assert (trace sE
            = trace sD ++ (if isFunction callback
                           then call_trace s callback VUndef [VNull; results]
                           else [])) as HtE by done.
    change (trace (set_running true (set_trace ?t sF))) with t.
    rewrite !actions_app, HtF, HtE, actions_app, HaD, HaC.
    change (actions [ELog _; EEmit "ready" VRobot]) with [EEmit "ready" VRobot].
    rewrite <- !(assoc_L (++)).
    by destruct (isFunction callback).
  - intros c Hc. simpl conn_heap.
    apply (sweep_flags connection_phase connection_laws cs s1 (postD sE));
      [|done].
    intros c' Hc'. simpl in *. rewrite HhE, HhD. exact Hc'.
  - intros d Hd. simpl dev_heap. rewrite HhF.
    apply (sweep_flags device_phase device_laws ds s2 sE); [|done].
    intros d' Hd'. simpl in *. exact Hd'.
  - simpl. congruence.
  - simpl. congruence.
Qed.



End StartImmediate.

Section Restart.
Import JsObject JsObjectFacts.
#[local] Arguments Nat.eqb : simpl never.
#[local] Arguments member : simpl never.
#[local] Arguments call : simpl never.
#[local] Arguments sweep : simpl never.
#[local] Arguments JsObject.values : simpl never.
#[local] Arguments call_trace : simpl never.

Lemma invocations_actions t : invocations (actions t) = invocations t.
Proof.
  induction t as [|e t IH]; [done|].
  unfold invocations, actions in *. simpl.
  destruct e; simpl; by rewrite ?IH.
Qed.

Lemma invocations_call_trace s f this args :
  invocations (call_trace s f this args) = [].
Proof. by destruct f as [| | | | | | | |[]| | |]. Qed.

Lemma halt_stops (s : State) (q : list Task) (callback : Cb) :
  running s = true →
  fst (halt callback (MkWorld s q)) = Normal tt
  ∧ running (st (snd (halt callback (MkWorld s q)))) = false.
Proof.
  intros Hrun. unfold halt. run_monad. rewrite Hrun. simpl.
  unfold try_catch.
  by destruct (halt_units s callback (MkWorld s q)) as [[[]|message] w1];
    run_monad.
Qed.



End Restart.

(** ** A phase that stays open *)

Section OpenPhase.
Import JsObject JsObjectFacts.
#[local] Arguments Nat.eqb : simpl never.
#[local] Arguments member : simpl never.
#[local] Arguments call : simpl never.

Lemma set_joins_same s : set_joins (joins s) s = s.
Proof. by destruct s. Qed.

(** The callback of a join that it does not complete. *)
Lemma join_callback_open e r finish s q js T k E acc :
  joins s = js ++ [mkJoin T k E acc] → S k ≠ T →
  ∃ E' acc',
    join_callback (length js) finish e r (MkWorld s q) =
    (Normal tt, MkWorld (set_joins (js ++ [mkJoin T (S k) E' acc']) s) q).
Proof.
  intros Hj HT. unfold join_callback. run_monad.
  rewrite Hj, list_lookup_middle by done. simpl.
  destruct (truthy e); simpl; rewrite Hj, insert_last; simpl;
    rewrite (proj2 (Nat.eqb_neq _ _) HT); by eexists _, _.
Qed.

Context (P : Phase) (L : PhaseLaws P).

Lemma visits_joins js cs : ∀ s,
  visits P cs (set_joins js s) = set_joins js (visits P cs s).
Proof using L.
  unfold visits. induction cs as [|c cs IH]; intros s; [done|].
  simpl. by rewrite (visit_joins P L), IH.
Qed.

Lemma visits_frame cs : ∀ s, ph_frame P s (visits P cs s).
Proof using L.
  unfold visits. induction cs as [|c cs IH]; intros s; simpl.
  - apply (law_frame_refl P L).
  - eapply (law_frame_trans P L); [apply (visit_frame P L)|apply IH].
Qed.

Lemma visits_actions cs : ∀ s,
  NoDup cs →
  actions (trace (visits P cs s))
  = actions (trace s)
    ++ List.map (ph_event P) (List.filter (fun c => negb (ph_flag P s c)) cs).
Proof using L.
  unfold visits. induction cs as [|c cs IH]; intros s Hnd; simpl.
  - by rewrite (right_id_L [] (++)).
  - apply NoDup_cons in Hnd as [Hc Hnd].
    rewrite (IH _ Hnd), (actions_visit P L), <- (assoc_L (++)). f_equal.
    assert (List.filter (fun c0 => negb (ph_flag P (visit P c s) c0)) cs
            = List.filter (fun c0 => negb (ph_flag P s c0)) cs) as ->.
    { apply List.filter_ext_in. intros c' Hc'.
      rewrite (flag_visit_other P L); [done|].
      intros ->. apply Hc. by apply list_elem_of_In. }
    by destruct (ph_flag P s c).
Qed.

Lemma impl_visit c c' s : ph_impl P (visit P c s) c' = ph_impl P s c'.
Proof using L.
  unfold visit. destruct (ph_flag P s c); [done|].
  by rewrite (law_impl_mark P L), (law_impl_pre P L).
Qed.

(** One unit that does not throw, on a join that it does not complete. *)
Lemma unit_open c finish s q js T k E acc :
  ph_flag P s c = true ∨ throws (ph_impl P s c) = false →
  joins s = js ++ [mkJoin T k E acc] →
  (calls_back_now P s c = true → S k ≠ T) →
  ∃ E' acc',
    ph_run P c (join_callback (length js) finish) (MkWorld s q) =
    (Normal tt,
     MkWorld
       (set_joins
          (js ++ [mkJoin T (k + (if calls_back_now P s c then 1 else 0))
                    E' acc'])
          (visit P c s))
       (q ++ List.map (later_task (length js) finish) (deferred P s [c]))).
Proof using L.
  intros Hok Hj HT. rewrite (law_run P L).
  unfold visit, calls_back_now, deferred in *. simpl omap.
  destruct (ph_flag P s c) eqn:Hflag; simpl in *.
  - destruct (join_callback_open VUndef VUndef finish s q js T k E acc Hj)
      as (E' & acc' & ->); [by apply HT|].
    exists E', acc'. rewrite (right_id_L [] (++)).
    by replace (k + 1) with (S k) by lia.
  - destruct Hok as [?|Hok]; [done|].
    destruct (ph_impl P s c) as [e|e|m|] eqn:Himpl; try discriminate Hok;
      simpl in *; unfold mbind, M_bind.
    + destruct (join_callback_open e VUndef finish (ph_pre P c s) q js T k E acc)
        as (E' & acc' & ->);
        [by rewrite (law_joins_pre P L)|by apply HT|].
      exists E', acc'. unfold modify. simpl.
      rewrite (law_mark_joins P L), (right_id_L [] (++)).
      by replace (k + 1) with (S k) by lia.
    + exists E, acc. unfold defer, modify. simpl. rewrite Nat.add_0_r.
      assert (joins (ph_mark P c (ph_pre P c s)) = js ++ [mkJoin T k E acc])
        as <- by by rewrite (law_joins_mark P L), (law_joins_pre P L).
      by rewrite set_joins_same.
    + exists E, acc. unfold modify. simpl. rewrite Nat.add_0_r.
      rewrite (right_id_L [] (++)).
      assert (joins (ph_mark P c (ph_pre P c s)) = js ++ [mkJoin T k E acc])
        as <- by by rewrite (law_joins_mark P L), (law_joins_pre P L).
      by rewrite set_joins_same.
Qed.

End OpenPhase.

Section StuckLoop.
Import JsObject JsObjectFacts.
#[local] Arguments Nat.eqb : simpl never.
#[local] Arguments member : simpl never.
#[local] Arguments call : simpl never.

Context (P : Phase) (L : PhaseLaws P).

Lemma calls_back_now_visit c c' s :
  c ≠ c' → calls_back_now P (visit P c s) c' = calls_back_now P s c'.
Proof using L.
  intros Hne. unfold calls_back_now.
  by rewrite (flag_visit_other P L), (impl_visit P L).
Qed.

Lemma deferred_cons c cs s :
  deferred P s (c :: cs) = deferred P s [c] ++ deferred P s cs.
Proof.
  unfold deferred. simpl. destruct (ph_flag P s c); [done|].
  by destruct (ph_impl P s c).
Qed.

Lemma deferred_visit c cs s :
  c ∉ cs → deferred P (visit P c s) cs = deferred P s cs.
Proof using L.
  intros Hc. induction cs as [|c' cs IH]; [done|].
  apply not_elem_of_cons in Hc as [Hne Hc].
  rewrite (deferred_cons c' cs (visit P c s)), (deferred_cons c' cs s), IH
    by done.
  f_equal. unfold deferred. simpl.
  by rewrite (flag_visit_other P L), (impl_visit P L) by done.
Qed.

Lemma deferred_joins js cs s :
  deferred P (set_joins js s) cs = deferred P s cs.
Proof using L.
  induction cs as [|c' cs IH]; [done|].
  rewrite (deferred_cons c' cs (set_joins js s)), (deferred_cons c' cs s), IH.
  f_equal. unfold deferred. simpl.
  by rewrite (law_flag_joins P L), (law_impl_joins P L).
Qed.

(** The units, none of which throws, of a join that they do not
    complete: the call returns with the join open. *)
Lemma forEach_open cs : ∀ s q js T k E acc (finish : Cb),
  NoDup cs →
  (∀ c, c ∈ cs → ph_flag P s c = true ∨ throws (ph_impl P s c) = false) →
  joins s = js ++ [mkJoin T k E acc] →
  k + length (List.filter (calls_back_now P s) cs) < T →
  ∃ E' acc',
    forEach (List.map (ph_run P) cs)
      (fun fn => fn (join_callback (length js) finish)) (MkWorld s q) =
    (Normal tt,
     MkWorld
       (set_joins
          (js ++ [mkJoin T (k + length (List.filter (calls_back_now P s) cs))
                    E' acc'])
          (visits P cs s))
       (q ++ List.map (later_task (length js) finish) (deferred P s cs))).
Proof using L.
  induction cs as [|c cs IH]; intros s q js T k E acc finish Hnd Hok Hj HT.
  - exists E, acc. simpl. rewrite Nat.add_0_r, (right_id_L [] (++)), <- Hj.
    by rewrite set_joins_same.
  - apply NoDup_cons in Hnd as [Hc Hnd].
    change (List.filter ?f (c :: cs))
      with (if f c then c :: List.filter f cs else List.filter f cs) in *.
    destruct (unit_open P L c finish s q js T k E acc) as (E1 & acc1 & E1');
      [apply Hok; left|done| |].
    { intros Hnow. rewrite Hnow in HT. simpl in HT. lia. }
    simpl forEach. unfold mbind at 1, M_bind at 1. rewrite E1'.
    set (k1 := k + (if calls_back_now P s c then 1 else 0)) in *.
    set (s1 := set_joins (js ++ [mkJoin T k1 E1 acc1]) (visit P c s)).
    assert (List.filter (calls_back_now P s1) cs
            = List.filter (calls_back_now P s) cs) as Hfilter.
    { apply List.filter_ext_in. intros c' Hc'. unfold s1, calls_back_now.
      rewrite (law_flag_joins P L), (law_impl_joins P L).
      rewrite (flag_visit_other P L), (impl_visit P L); [done|].
      intros ->. apply Hc. by apply list_elem_of_In. }
    destruct (IH s1 (q ++ List.map (later_task (length js) finish)
                            (deferred P s [c]))
                js T k1 E1 acc1 finish Hnd) as (E2 & acc2 & E2').
    + intros c' Hc'. unfold s1.
      rewrite (law_flag_joins P L), (law_impl_joins P L).
      rewrite (flag_visit_other P L), (impl_visit P L).
      * apply Hok. by right.
      * intros ->. by apply Hc.
    + done.
    + rewrite Hfilter. unfold k1.
      destruct (calls_back_now P s c); simpl in *; lia.
    + exists E2, acc2. rewrite E2', Hfilter. f_equal. f_equal.
      * unfold s1. rewrite visits_joins by done. rewrite set_joins_twice.
        unfold k1.
        replace (k + (if calls_back_now P s c then 1 else 0)
                 + length (List.filter (calls_back_now P s) cs))
          with (k + length (if calls_back_now P s c
                            then c :: List.filter (calls_back_now P s) cs
                            else List.filter (calls_back_now P s) cs))
          by (destruct (calls_back_now P s c); simpl; lia).
        done.
      * unfold s1. rewrite deferred_joins, deferred_visit by done.
        rewrite <- (assoc_L (++)), <- List.map_app.
        by rewrite <- deferred_cons.
Qed.

(** A unit that never calls back is counted neither among those that
    call back at once nor among those that call back later. *)
Lemma never_counts cs s :
  length (List.filter (calls_back_now P s) cs) + length (deferred P s cs)
  ≤ length cs
  ∧ ((∃ c, c ∈ cs ∧ ph_flag P s c = false ∧ ph_impl P s c = NeverCallsBack) →
     length (List.filter (calls_back_now P s) cs) + length (deferred P s cs)
     < length cs).
Proof.
  induction cs as [|c cs [IH1 IH2]].
  - split; [done|]. by intros (c & []%elem_of_nil & _).
  - rewrite deferred_cons, length_app.
    change (List.filter ?f (c :: cs))
      with (if f c then c :: List.filter f cs else List.filter f cs).
    assert (length (if calls_back_now P s c
                    then c :: List.filter (calls_back_now P s) cs
                    else List.filter (calls_back_now P s) cs)
            + length (deferred P s [c])
            ≤ 1 + length (List.filter (calls_back_now P s) cs)) as Hone.
    { unfold calls_back_now, deferred. simpl.
      destruct (ph_flag P s c); simpl; [lia|].
      destruct (ph_impl P s c); simpl; lia. }
    split; [simpl length in *; lia|].
    intros (c' & [->|Hc']%elem_of_cons & Hflag & Himpl).
    + assert (calls_back_now P s c = false) as ->
        by (unfold calls_back_now; by rewrite Hflag, Himpl).
      assert (deferred P s [c] = []) as ->
        by (unfold deferred; simpl; by rewrite Hflag, Himpl).
      simpl length in *. lia.
    + specialize (IH2 (ex_intro _ c' (conj Hc' (conj Hflag Himpl)))).
      simpl length in *. lia.
Qed.

(** The deferred completions of a join that they do not complete,
    delivered in any order: nothing but the join changes. *)
Lemma event_loop_stuck n : ∀ errs schedule s js T k E acc (finish : Cb),
  length errs = n →
  joins s = js ++ [mkJoin T k E acc] → k + length errs < T →
  length errs ≤ length schedule →
  ∃ k' E' acc',
    event_loop schedule
      (MkWorld s (List.map (later_task (length js) finish) errs))
    = Some (set_joins (js ++ [mkJoin T k' E' acc']) s).
Proof.
  induction n as [|n IH]; intros errs schedule s js T k E acc finish Hn Hj HT Hs.
  - destruct errs; [|discriminate Hn]. simpl. rewrite event_loop_idle.
    exists k, E, acc. by rewrite <- Hj, set_joins_same.
  - destruct schedule as [|i schedule]; [simpl in Hs; lia|].
    assert (i mod length errs < length errs) as Hi
      by (apply Nat.mod_upper_bound; lia).
    destruct (lookup_lt_is_Some_2 errs _ Hi) as [err Herr].
    change (List.map (later_task (length js) finish) errs)
      with (later_task (length js) finish <$> errs).
    rewrite (event_loop_turn _ _ _ _ (later_task (length js) finish err))
      by (by rewrite length_fmap, list_lookup_fmap, Herr).
    cbn [run later_task].
    destruct (join_callback_open err VUndef finish s [] js T k E acc Hj)
      as (E1 & acc1 & ->); [lia|].
    cbn [pending st]. rewrite (right_id_L [] (++)), length_fmap.
    rewrite <- list_fmap_delete.
    destruct (IH (delete (i mod length errs) errs) schedule
                (set_joins (js ++ [mkJoin T (S k) E1 acc1]) s)
                js T (S k) E1 acc1 finish) as (k' & E' & acc' & Hloop).
    + rewrite length_delete by by eexists. lia.
    + done.
    + rewrite length_delete by by eexists. lia.
    + rewrite length_delete by by eexists. simpl in Hs. lia.
    + exists k', E', acc'.
      change (later_task (length js) finish <$> ?l)
        with (List.map (later_task (length js) finish) l).
      by rewrite Hloop, set_joins_twice.
Qed.

End StuckLoop.

Section OpenParallel.
Import JsObject JsObjectFacts.
#[local] Arguments Nat.eqb : simpl never.
#[local] Arguments member : simpl never.
#[local] Arguments call : simpl never.

Lemma forEach_app {A} (l1 l2 : list A) (f : A → M unit) w :
  forEach (l1 ++ l2) f w = (forEach l1 f;; forEach l2 f) w.
Proof.
  revert w. induction l1 as [|x l1 IH]; intros w; simpl.
  - done.
  - unfold mbind, M_bind in *. destruct (f x w) as [[[]|e] w']; [|done].
    apply IH.
Qed.

Lemma filter_length_le {A} (f : A → bool) (l : list A) :
  length (List.filter f l) ≤ length l.
Proof.
  induction l as [|x l IH]; simpl; [done|]. destruct (f x); simpl; lia.
Qed.

Context (P : Phase) (L : PhaseLaws P).

Lemma flag_visits_other cs : ∀ s c,
  c ∉ cs → ph_flag P (visits P cs s) c = ph_flag P s c.
Proof using L.
  unfold visits. induction cs as [|c' cs IH]; intros s c Hc; [done|].
  apply not_elem_of_cons in Hc as [Hne Hc]. simpl.
  rewrite IH by done. by apply (flag_visit_other P L).
Qed.

Lemma impl_visits cs : ∀ s c, ph_impl P (visits P cs s) c = ph_impl P s c.
Proof using L.
  unfold visits. induction cs as [|c' cs IH]; intros s c; [done|].
  simpl. rewrite IH. apply (impl_visit P L).
Qed.

(** A join some unit of which never calls back, and none of which
    throws: the call returns with the join open. *)
Lemma parallel_open cs (finish : Cb) s q :
  NoDup cs →
  (∀ c, c ∈ cs → ph_flag P s c = true ∨ throws (ph_impl P s c) = false) →
  length (List.filter (calls_back_now P s) cs) < length cs →
  ∃ E' acc',
    parallel (List.map (ph_run P) cs) finish (MkWorld s q) =
    (Normal tt,
     MkWorld
       (set_joins
          (joins s ++ [mkJoin (length cs)
                         (length (List.filter (calls_back_now P s) cs))
                         E' acc'])
          (visits P cs s))
       (q ++ List.map (later_task (length (joins s)) finish) (deferred P s cs))).
Proof using L.
  intros Hnd Hok Hlt. unfold parallel.
  erewrite bind_normal by reflexivity.
  erewrite bind_normal by reflexivity.
  change (st (MkWorld s q)) with s. change (pending (MkWorld s q)) with q.
  rewrite length_map.
  destruct cs as [|c cs]; [simpl in Hlt; lia|].
  change (List.map (ph_run P) (c :: cs))
    with (ph_run P c :: List.map (ph_run P) cs).
  cbv iota.
  change (ph_run P c :: List.map (ph_run P) cs)
    with (List.map (ph_run P) (c :: cs)).
  set (s0 := set_joins (joins s ++ [mkJoin (length (c :: cs)) 0 VNull []]) s).
  assert (List.filter (calls_back_now P s0) (c :: cs)
          = List.filter (calls_back_now P s) (c :: cs)) as Hfilter.
  { apply List.filter_ext. intros c'. unfold calls_back_now, s0.
    by rewrite (law_flag_joins P L), (law_impl_joins P L). }
  destruct (forEach_open P L (c :: cs) s0 q (joins s) (length (c :: cs)) 0
              VNull [] finish Hnd) as (E' & acc' & ->).
  - intros c' Hc'. unfold s0.
    rewrite (law_flag_joins P L), (law_impl_joins P L). by apply Hok.
  - done.
  - rewrite Hfilter. simpl in *. lia.
  - exists E', acc'. rewrite Hfilter. unfold s0.
    by rewrite (visits_joins P L), set_joins_twice, (deferred_joins P L).
Qed.

(** A join one of whose units throws, after units that do not: the
    exception leaves the join, in the state in which the method was
    called. *)
Lemma parallel_throws before c rest message (finish : Cb) s q :
  NoDup (before ++ c :: rest) →
  (∀ c', c' ∈ before →
         ph_flag P s c' = true ∨ throws (ph_impl P s c') = false) →
  ph_flag P s c = false → ph_impl P s c = Throws message →
  ∃ js q',
    parallel (List.map (ph_run P) (before ++ c :: rest)) finish (MkWorld s q) =
    (Thrown message,
     MkWorld (set_joins js (ph_pre P c (visits P before s))) q').
Proof using L.
  intros Hnd Hok Hflag Himpl. unfold parallel.
  erewrite bind_normal by reflexivity.
  erewrite bind_normal by reflexivity.
  change (st (MkWorld s q)) with s. change (pending (MkWorld s q)) with q.
  rewrite length_map.
  apply NoDup_app in Hnd as (HndB & Hdisj & HndR).
  assert (c ∉ before) as Hc by (intros Hin; apply (Hdisj c Hin); left).
  set (T := length (before ++ c :: rest)).
  set (s0 := set_joins (joins s ++ [mkJoin T 0 VNull []]) s).
  assert (∃ x l, List.map (ph_run P) (before ++ c :: rest) = x :: l)
    as (x & l & Hcons).
  { destruct before; simpl; by eexists _, _. }
  rewrite Hcons. cbv iota. rewrite <- Hcons. clear x l Hcons.
  rewrite List.map_app, forEach_app.
  destruct (forEach_open P L before s0 q (joins s) T 0 VNull [] finish HndB)
    as (E' & acc' & Eopen).
  - intros c' Hc'. unfold s0.
    rewrite (law_flag_joins P L), (law_impl_joins P L). by apply Hok.
  - done.
  - pose proof (filter_length_le (calls_back_now P s0) before).
    unfold T. rewrite length_app. simpl. lia.
  - erewrite bind_normal by exact Eopen.
    simpl List.map. simpl forEach.
    erewrite bind_thrown; [by eexists _, _|].
    rewrite (law_run P L).
    rewrite (law_flag_joins P L), (law_impl_joins P L).
    unfold s0. rewrite (visits_joins P L).
    rewrite (law_flag_joins P L), (law_impl_joins P L).
    rewrite flag_visits_other, impl_visits, Hflag, Himpl by done.
    simpl. unfold mbind, M_bind, throw.
    rewrite set_joins_twice, (law_pre_joins P L). reflexivity.
Qed.

End OpenParallel.

Section StartBlocked.
Import JsObject JsObjectFacts.
#[local] Arguments Nat.eqb : simpl never.
#[local] Arguments member : simpl never.
#[local] Arguments call : simpl never.
#[local] Arguments JsObject.values : simpl never.
#[local] Arguments call_trace : simpl never.
#[local] Arguments visits : simpl never.
#[local] Arguments deferred : simpl never.





End StartBlocked.
